(** * Stormwater classifier: parser, location resolver and rule engine

    A shallow embedding of the Python sources

      - src/parsing/description_parser.py
      - src/lookups/lookup_client.py
      - src/models/models.py
      - src/classify.py
      - scripts/eval_classifier.py (to_bool)

    followed by the properties proved about them.

    Conventions of the embedding.

    - A Python [str] is a [string]; its characters are the code points
      below 256 (ASCII and Latin-1), read through their [ascii] code.
    - Areas in square feet are integers ([Z]).  The parser obtains them
      with [float] from a string of decimal digits.  A string of at most
      15 digits is below 2^53 and [float] gives its decimal value
      exactly; a longer one is rounded to a double, and the integer here
      is then the unrounded value.  The rule engine only compares areas
      with 0, 5000 and 20000, and rounding to a double is monotone and
      fixes these three constants, so the comparisons on the exact
      integer and on the double agree for every string of digits.  A
      statement about the value itself, and not about a comparison, is
      made for at most 15 digits.
    - [None] is [None]; a field typed [float | None] that may also hold
      the string "FULL_SITE" is an option of a two-constructor type.
    - The regular expressions of module [re] are terms of the type
      [regex] below, matched by a backtracking matcher that lists the
      successes in Python's priority order. *)

From Stdlib Require Import ZArith QArith String Ascii List Bool Lia.
From stdpp Require Import base strings gmap.

Import ListNotations.
Local Open Scope string_scope.
Local Open Scope list_scope.

(* ===================================================================== *)
(** ** Characters *)
(* ===================================================================== *)

Definition code (c : ascii) : N := N_of_ascii c.

Definition in_range (lo hi : N) (c : ascii) : bool :=
  ((lo <=? code c) && (code c <=? hi))%N.

(** [\d] on a [str] pattern: decimal digits (below 256 only 0-9). *)
Definition is_digit (c : ascii) : bool := in_range 48 57 c.

(** [str.isspace], which is also [\s]: TAB LF VT FF CR, the four
    separators FS GS RS US, SPACE, NEL and NBSP. *)
Definition is_space (c : ascii) : bool :=
  in_range 9 13 c || in_range 28 32 c || (code c =? 133)%N || (code c =? 160)%N.

Definition is_ascii_upper (c : ascii) : bool := in_range 65 90 c.
Definition is_ascii_lower (c : ascii) : bool := in_range 97 122 c.
Definition is_ascii_alpha (c : ascii) : bool := is_ascii_upper c || is_ascii_lower c.

(** Latin-1 capital letters other than the multiplication sign. *)
Definition is_latin_upper (c : ascii) : bool :=
  in_range 192 222 c && negb (code c =? 215)%N.

(** [\w]: [str.isalnum] or underscore. *)
Definition is_word (c : ascii) : bool :=
  is_digit c || is_ascii_alpha c || (code c =? 95)%N
  || (code c =? 170)%N || (code c =? 178)%N || (code c =? 179)%N
  || (code c =? 181)%N || (code c =? 185)%N || (code c =? 186)%N
  || in_range 188 190 c
  || (in_range 192 255 c && negb (code c =? 215)%N && negb (code c =? 247)%N).

(** [str.lower] on one character. *)
Definition lower (c : ascii) : ascii :=
  if is_ascii_upper c || is_latin_upper c then ascii_of_N (code c + 32) else c.

(** [str.upper] on one ASCII character; the sources only compare the
    result with "YES", which no other character can produce. *)
Definition upper (c : ascii) : ascii :=
  if is_ascii_lower c then ascii_of_N (code c - 32) else c.

Definition eqb_ci (a c : ascii) : bool := Ascii.eqb (lower c) (lower a).

Definition chars (s : string) : list ascii := list_ascii_of_string s.
Definition str (l : list ascii) : string := string_of_list_ascii l.

(* ===================================================================== *)
(** ** Regular expressions (module [re]) *)
(* ===================================================================== *)

(** The fragment of [re] syntax the sources use.  Every repetition in
    them ranges over a single-character class, so [Rep] takes a class.
    No pattern has more than one capturing group. *)
Inductive regex : Type :=
| Eps                                   (* empty pattern *)
| Chr (p : ascii -> bool)               (* one character of a class *)
| Seq (r1 r2 : regex)                   (* r1 r2 *)
| Alt (r1 r2 : regex)                   (* r1|r2 *)
| Rep (greedy : bool) (p : ascii -> bool)  (* p* and p*? *)
| Grp (r : regex)                       (* (r), group 1 *)
| Bnd.                                  (* \b *)

(** A position in the subject: the character before it, if any, and the
    characters from it on. *)
Definition cfg : Type := option ascii * list ascii.

Definition word_before (k : cfg) : bool :=
  match fst k with Some c => is_word c | None => false end.
Definition word_after (k : cfg) : bool :=
  match snd k with c :: _ => is_word c | [] => false end.

(** The substring consumed between position [k] and a later position
    whose remaining input is [s']. *)
Definition consumed (k : cfg) (s' : list ascii) : list ascii :=
  firstn (length (snd k) - length s') (snd k).

(** Positions after zero or more characters of class [p], in priority
    order: longest first when greedy, shortest first when lazy. *)
Fixpoint rep (greedy : bool) (p : ascii -> bool)
    (prev : option ascii) (s : list ascii) : list cfg :=
  match s with
  | c :: s' =>
      if p c then
        if greedy then rep greedy p (Some c) s' ++ [(prev, s)]
        else (prev, s) :: rep greedy p (Some c) s'
      else [(prev, s)]
  | [] => [(prev, s)]
  end.

Definition later (g1 g2 : option (list ascii)) : option (list ascii) :=
  match g2 with Some _ => g2 | None => g1 end.

(** All ways to match [r] from position [k], best first; each with the
    position reached and the text of group 1 if the path went through
    it. *)
Fixpoint ends (r : regex) (k : cfg) : list (cfg * option (list ascii)) :=
  match r with
  | Eps => [(k, None)]
  | Chr p =>
      match snd k with
      | c :: s' => if p c then [((Some c, s'), None)] else []
      | [] => []
      end
  | Seq r1 r2 =>
      flat_map (fun e1 => map (fun e2 => (fst e2, later (snd e1) (snd e2)))
                              (ends r2 (fst e1)))
               (ends r1 k)
  | Alt r1 r2 => ends r1 k ++ ends r2 k
  | Rep g p => map (fun k' => (k', None)) (rep g p (fst k) (snd k))
  | Grp r1 => map (fun e => (fst e, Some (consumed k (snd (fst e))))) (ends r1 k)
  | Bnd => if xorb (word_before k) (word_after k) then [(k, None)] else []
  end.

(** A match object: the matched text and group 1. *)
Record Match : Type := { group0 : list ascii; group1 : option (list ascii) }.

(** [m.group(1)]; the patterns it is called on always go through their
    group (lemma [group_participates]). *)
Definition group_1 (m : Match) : list ascii :=
  match group1 m with Some g => g | None => [] end.

(** [pattern.search]: the leftmost start position with a match, and the
    first match there. *)
Fixpoint search_at (r : regex) (prev : option ascii) (s : list ascii)
    : option Match :=
  match ends r (prev, s) with
  | e :: _ => Some {| group0 := consumed (prev, s) (snd (fst e)); group1 := snd e |}
  | [] =>
      match s with
      | c :: s' => search_at r (Some c) s'
      | [] => None
      end
  end.

Definition re_search (r : regex) (text : string) : option Match :=
  search_at r None (chars text).

(** [pattern.findall] for a pattern with one group: the texts of group 1
    in the successive non-overlapping matches.  [skip] counts the
    characters of the last match still to be passed.  (After an empty
    match the scan moves to the next character; the one pattern this is
    called on has no empty match.) *)
Fixpoint findall_at (r : regex) (skip : nat) (prev : option ascii)
    (s : list ascii) {struct s} : list (list ascii) :=
  match skip with
  | S n =>
      match s with
      | c :: s' => findall_at r n (Some c) s'
      | [] => []
      end
  | O =>
      match ends r (prev, s) with
      | e :: _ =>
          let g := match snd e with Some g => g | None => [] end in
          g :: match s with
               | c :: s' =>
                   findall_at r (length s - length (snd (fst e)) - 1) (Some c) s'
               | [] => []
               end
      | [] =>
          match s with
          | c :: s' => findall_at r 0 (Some c) s'
          | [] => []
          end
      end
  end.

Definition re_findall (r : regex) (text : string) : list (list ascii) :=
  findall_at r 0 None (chars text).

(** The positions of a subject from a given one on. *)
Fixpoint positions (prev : option ascii) (s : list ascii) : list cfg :=
  (prev, s) :: match s with
               | c :: s' => positions (Some c) s'
               | [] => []
               end.

(** [r] matches from position [k]; [r] matches somewhere from [(prev, s)]
    on. *)
Definition matches_at (r : regex) (k : cfg) : Prop := ends r k <> [].
Definition occurs (r : regex) (prev : option ascii) (s : list ascii) : Prop :=
  exists k, In k (positions prev s) /\ matches_at r k.

(** Every character class of [r] lies within [P]. *)
Fixpoint classes_within (P : ascii -> bool) (r : regex) : Prop :=
  match r with
  | Eps | Bnd => True
  | Chr p | Rep _ p => forall c, p c = true -> P c = true
  | Seq r1 r2 | Alt r1 r2 => classes_within P r1 /\ classes_within P r2
  | Grp r1 => classes_within P r1
  end.

(** Every path through [r] goes through its group. *)
Fixpoint through_group (r : regex) : bool :=
  match r with
  | Grp _ => true
  | Seq r1 r2 => through_group r1 || through_group r2
  | Alt r1 r2 => through_group r1 && through_group r2
  | _ => false
  end.

(** *** Pattern combinators, all under [re.IGNORECASE] *)

(** [r1 r2 ... rn] and [r1|r2|...|rn]. *)
Definition cat (rs : list regex) : regex := fold_right Seq Eps rs.
Definition alt (rs : list regex) : regex := fold_right Alt (Chr (fun _ => false)) rs.

(** A literal word, letters matched in either case. *)
Definition lit (w : string) : regex := cat (map (fun a => Chr (eqb_ci a)) (chars w)).

(** [(?:r)?] *)
Definition opt (r : regex) : regex := Alt r Eps.

(** [p+] and [p+?] *)
Definition plus (greedy : bool) (p : ascii -> bool) : regex :=
  Seq (Chr p) (Rep greedy p).

(** [\s*], [\s+] *)
Definition ws0 : regex := Rep true is_space.
Definition ws1 : regex := plus true is_space.

(** [.] without DOTALL *)
Definition dot (c : ascii) : bool := negb (code c =? 10)%N.

(** [[\d,]] *)
Definition digit_or_comma (c : ascii) : bool := is_digit c || (code c =? 44)%N.

(** [[-\s]] *)
Definition dash_or_space (c : ascii) : bool := (code c =? 45)%N || is_space c.

(** [[A-Za-z0-9.\-'\s]] *)
Definition street_char (c : ascii) : bool :=
  is_ascii_alpha c || is_digit c || (code c =? 46)%N || (code c =? 45)%N
  || (code c =? 39)%N || is_space c.

(* ===================================================================== *)
(** ** src/parsing/description_parser.py *)
(* ===================================================================== *)

(** The value of [disturbed_area_sf] when it is not [None]: a number or
    the string "FULL_SITE". *)
Inductive area : Type :=
| Num (sf : Z)
| FULL_SITE.

Record ParsedDescription : Type := {
  text : string;
  street_address : option string;
  borough : option string;
  disturbed_area_sf : option area;
  new_impervious_sf : option Z;
}.

(** [(?:sf|square\s*feet|sq\s*ft)] and [(?:sf|square\s*feet)] *)
Definition unit_sf : regex :=
  alt [lit "sf"; cat [lit "square"; ws0; lit "feet"]; cat [lit "sq"; ws0; lit "ft"]].
Definition unit_sf_short : regex :=
  alt [lit "sf"; cat [lit "square"; ws0; lit "feet"]].

(** [[\d,]+\s*(?:sf|square\s*feet|sq\s*ft)], the quantity token, and its
    variant without "sq ft". *)
Definition quantity : regex := cat [plus true digit_or_comma; ws0; unit_sf].
Definition quantity_short : regex := cat [plus true digit_or_comma; ws0; unit_sf_short].

(** [([\d,]+)\s*(?:sf|square\s*feet|sq\s*ft)] *)
Definition NUMBER_SF_PATTERN : regex :=
  cat [Grp (plus true digit_or_comma); ws0; unit_sf].

(** [\b(\d+\s+[A-Za-z0-9.\-'\s]+?\s+(?:Street|St|Avenue|Ave|Boulevard|Blvd|Lane|Ln|Road|Rd|Drive|Dr))\b] *)
Definition ADDRESS_PATTERN : regex :=
  cat [Bnd;
       Grp (cat [plus true is_digit; ws1; plus false street_char; ws1;
                 alt [lit "Street"; lit "St"; lit "Avenue"; lit "Ave";
                      lit "Boulevard"; lit "Blvd"; lit "Lane"; lit "Ln";
                      lit "Road"; lit "Rd"; lit "Drive"; lit "Dr"]]);
       Bnd].

(** [\b(?:in\s+(?:the\s+borough\s+of\s+)?)?(Bronx|Brooklyn|Queens|Manhattan|Staten\s+Island|SI|S\.I\.)\b] *)
Definition BOROUGH_PATTERN : regex :=
  cat [Bnd;
       opt (cat [lit "in"; ws1;
                 opt (cat [lit "the"; ws1; lit "borough"; ws1; lit "of"; ws1])]);
       Grp (alt [lit "Bronx"; lit "Brooklyn"; lit "Queens"; lit "Manhattan";
                 cat [lit "Staten"; ws1; lit "Island"]; lit "SI"; lit "S.I."]);
       Bnd].

Definition DISTURB_PHRASES : list regex :=
  [ (* disturb(?:s|ed|ance|ing)?\s*(?:approximately|around|roughly)?\s*([\d,]+\s*(?:sf|square\s*feet|sq\s*ft)) *)
    cat [lit "disturb"; opt (alt [lit "s"; lit "ed"; lit "ance"; lit "ing"]); ws0;
         opt (alt [lit "approximately"; lit "around"; lit "roughly"]); ws0;
         Grp quantity];
    (* soil\s+disturbance\s*(?:of)?\s*([\d,]+\s*(?:sf|square\s*feet)) *)
    cat [lit "soil"; ws1; lit "disturbance"; ws0; opt (lit "of"); ws0;
         Grp quantity_short] ].

Definition site_lot_parcel : regex := alt [lit "site"; lit "lot"; lit "parcel"].
Definition entire_full : regex := alt [lit "entire"; lit "full"].

Definition FULL_SITE_PHRASES : list regex :=
  [ (* disturb(?:ing|s|ed)?\s+(?:the\s+)?(?:entire|full)\s+(?:site|lot|parcel) *)
    cat [lit "disturb"; opt (alt [lit "ing"; lit "s"; lit "ed"]); ws1;
         opt (cat [lit "the"; ws1]); entire_full; ws1; site_lot_parcel];
    (* (?:entire|full)\s+(?:site|lot|parcel)\s+will\s+be\s+disturbed *)
    cat [entire_full; ws1; site_lot_parcel; ws1; lit "will"; ws1; lit "be"; ws1;
         lit "disturbed"];
    (* full[-\s]?site *)
    cat [lit "full"; opt (Chr dash_or_space); lit "site"];
    (* full[-\s]?lot *)
    cat [lit "full"; opt (Chr dash_or_space); lit "lot"];
    (* full[-\s]?parcel *)
    cat [lit "full"; opt (Chr dash_or_space); lit "parcel"];
    (* full[-\s]depth\s+reconstruction *)
    cat [lit "full"; Chr dash_or_space; lit "depth"; ws1; lit "reconstruction"];
    (* the\s+entire\s+.*\s+will\s+be\s+disturbed *)
    cat [lit "the"; ws1; lit "entire"; ws1; Rep true dot; ws1; lit "will"; ws1;
         lit "be"; ws1; lit "disturbed"] ].

Definition IMPERVIOUS_PHRASES : list regex :=
  [ (* new\s+impervious\s+area\s*(?:of)?\s*([\d,]+\s*(?:sf|square\s*feet)) *)
    cat [lit "new"; ws1; lit "impervious"; ws1; lit "area"; ws0; opt (lit "of"); ws0;
         Grp quantity_short];
    (* adding\s*([\d,]+\s*(?:sf|square\s*feet))\s+of\s+new\s+impervious *)
    cat [lit "adding"; ws0; Grp quantity_short; ws1; lit "of"; ws1; lit "new"; ws1;
         lit "impervious"];
    (* (?:propos(?:es|ing)\s* )?([\d,]+\s*(?:sf|square\s*feet))\s*(?:of)?\s*new\s+impervious
       (a space added before the first closing parenthesis) *)
    cat [opt (cat [lit "propos"; alt [lit "es"; lit "ing"]; ws0]);
         Grp quantity_short; ws0; opt (lit "of"); ws0; lit "new"; ws1;
         lit "impervious"] ].

Definition propos : regex := cat [lit "propos"; alt [lit "es"; lit "ing"]].

Definition NEW_BUILDING_PATTERNS : list regex :=
  [ (* new\s+building *)
    cat [lit "new"; ws1; lit "building"];
    (* construction\s+of\s+a\s+new *)
    cat [lit "construction"; ws1; lit "of"; ws1; lit "a"; ws1; lit "new"];
    (* constructing\s+a\s+new *)
    cat [lit "constructing"; ws1; lit "a"; ws1; lit "new"];
    (* erect(?:ing)?\s+a\s+new *)
    cat [lit "erect"; opt (lit "ing"); ws1; lit "a"; ws1; lit "new"];
    (* propos(?:es|ing)\s+a\s+new\s+building *)
    cat [propos; ws1; lit "a"; ws1; lit "new"; ws1; lit "building"];
    (* replace(?:s|d|ment)?\s+.*\s+with\s+a\s+new\s+building *)
    cat [lit "replace"; opt (alt [lit "s"; lit "d"; lit "ment"]); ws1; Rep true dot;
         ws1; lit "with"; ws1; lit "a"; ws1; lit "new"; ws1; lit "building"];
    (* construction\s+of\s+new *)
    cat [lit "construction"; ws1; lit "of"; ws1; lit "new"];
    (* construction\s+of\s+a\s+new *)
    cat [lit "construction"; ws1; lit "of"; ws1; lit "a"; ws1; lit "new"];
    (* construct(?:ing)?\s+.*\s+new\s+building *)
    cat [lit "construct"; opt (lit "ing"); ws1; Rep true dot; ws1; lit "new"; ws1;
         lit "building"];
    (* new\s+\d+-story\s+building *)
    cat [lit "new"; ws1; plus true is_digit; lit "-story"; ws1; lit "building"];
    (* new\s+structure *)
    cat [lit "new"; ws1; lit "structure"];
    (* propos(?:es|ing)\s+.*new\s+building *)
    cat [propos; ws1; Rep true dot; lit "new"; ws1; lit "building"] ].

(** Decimal value of a string of digits. *)
Definition digit_value (c : ascii) : Z := (Z.of_N (code c) - 48)%Z.

Definition decimal (ds : list ascii) : Z :=
  fold_left (fun acc c => (10 * acc + digit_value c)%Z) ds 0%Z.

(** [_extract_sf_number]: drop every character that is not a digit;
    [float] of what is left, [None] if nothing is left.  The value is
    the decimal reading of the digits: the double [float] returns when
    there are at most 15 of them, the unrounded value beyond (see the
    conventions at the head of the file). *)
Definition _extract_sf_number (sf_string : list ascii) : option Z :=
  let cleaned := List.filter is_digit sf_string in
  match cleaned with
  | [] => None
  | _ => Some (decimal cleaned)
  end.

(** [for pat in pats: m = re.search(pat, text); if m: ...; break] for
    the loops that use the match. *)
Fixpoint first_match (pats : list regex) (text : string) : option Match :=
  match pats with
  | [] => None
  | pat :: pats' =>
      match re_search pat text with
      | Some m => Some m
      | None => first_match pats' text
      end
  end.

(** The same loop when only the existence of a match is used. *)
Definition any_match (pats : list regex) (text : string) : bool :=
  match first_match pats text with Some _ => true | None => false end.

Definition parse_description (text : string) : ParsedDescription :=
  let address_match := re_search ADDRESS_PATTERN text in
  let borough_match := re_search BOROUGH_PATTERN text in
  let street_address :=
    match address_match with Some m => Some (str (group_1 m)) | None => None end in
  let borough :=
    match borough_match with Some m => Some (str (group_1 m)) | None => None end in
  (* an explicit disturbance phrase *)
  let disturbed_area :=
    match first_match DISTURB_PHRASES text with
    | Some m => _extract_sf_number (group_1 m)
    | None => None
    end in
  (* a single square footage in the text *)
  let disturbed_area :=
    match disturbed_area with
    | None =>
        match re_findall NUMBER_SF_PATTERN text with
        | [sf] => _extract_sf_number sf
        | _ => None
        end
    | Some _ => disturbed_area
    end in
  let disturbed_area : option area := option_map Num disturbed_area in
  (* the entire site *)
  let disturbed_area :=
    match disturbed_area with
    | None => if any_match FULL_SITE_PHRASES text then Some FULL_SITE else None
    | Some _ => disturbed_area
    end in
  let new_imp :=
    match first_match IMPERVIOUS_PHRASES text with
    | Some m => _extract_sf_number (group_1 m)
    | None => None
    end in
  let new_imp :=
    match new_imp with
    | None => if any_match NEW_BUILDING_PATTERNS text then Some 1%Z else None
    | Some _ => new_imp
    end in
  let new_imp :=
    match new_imp with
    | None => Some 0%Z
    | Some _ => new_imp
    end in
  {| text := text;
     street_address := street_address;
     borough := borough;
     disturbed_area_sf := disturbed_area;
     new_impervious_sf := new_imp |}.

(* ===================================================================== *)
(** ** src/lookups/lookup_client.py *)
(* ===================================================================== *)

Definition BORO_TO_CODE : gmap string string :=
  list_to_map [("Manhattan", "MN"); ("Bronx", "BX"); ("Brooklyn", "BK");
               ("Queens", "QN"); ("Staten Island", "SI")].

(** A point in longitude and latitude. *)
Definition Point : Type := (Q * Q)%type.

(** A row of the MapPLUTO layer: the columns the client reads, and the
    centroid of the parcel geometry.  [Address] is [None] for a missing
    value. *)
Record Parcel : Type := {
  Borough : string;
  Address : option string;
  LotArea : option Z;
  centroid : Point;
}.

(** A row of the MS4 drainage-area layer: the containment test of its
    polygon, and [str(row.get(COLUMN, ""))] for the four columns read. *)
Record DrainageArea : Type := {
  contains : Point -> bool;
  FLOATABLES : string;
  PATHOGENS : string;
  NITROGEN : string;
  PHOSPHORUS : string;
}.

Record PlutoLookupClient : Type := {
  pluto : list Parcel;
  ms4 : list DrainageArea;
}.

(** The dictionary returned by the lookup.  A key that is not in the
    dictionary reads as [None] through [.get(key, None)]. *)
Module Loc.
Record t : Type := {
  in_ms4_area : bool;
  pollutants_of_concern : list string;
  lot_area_sf : option Z;
  full_site_disturbed_sf : option Z;
}.
End Loc.

Definition default_features : Loc.t :=
  {| Loc.in_ms4_area := false;
     Loc.pollutants_of_concern := [];
     Loc.lot_area_sf := None;
     Loc.full_site_disturbed_sf := None |}.

(** The queries made to the two layers, in the order they are made. *)
Inductive query : Type :=
| ExactQuery (street_addr bcode : string)
| FuzzyQuery (street_addr bcode : string) (cutoff : Q)
| ContainsQuery (pt : Point).

(** A computation that records the queries it makes. *)
Definition traced (A : Type) : Type := (A * list query)%type.
Definition tell (q : query) : traced unit := (tt, [q]).

#[global] Instance traced_ret : MRet traced := fun A a => (a, []).
#[global] Instance traced_bind : MBind traced := fun A B f m =>
  let r := f (fst m) in (fst r, snd m ++ snd r).

(** [not s] for a value that is a string or [None]. *)
Definition not_str (s : option string) : bool :=
  match s with
  | None => true
  | Some s => String.eqb s ""
  end.

(** [.astype(str)] on the address column, for a parcel that has an
    address.  For a parcel without one the column holds a missing value,
    which pandas turns into the text "nan", into [None] or leaves as a
    NaN according to its version; the statements about the two address
    steps are made for stores in which every parcel has an address
    ([addresses_present]), where the versions agree. *)
Definition astype_str (a : option string) : string :=
  match a with Some s => s | None => "nan" end.

(** [Series.str.contains(pat, case=False)] reads [pat] as a regular
    expression.  The street addresses the parser produces are made of
    [street_char]s only (lemma [street_address_chars]), among which the
    dot is the one character with a meaning in a pattern: this reading
    of [pat] is the one of module [re] for a pattern of [street_char]s,
    and the statements about [str_contains] are made for such patterns. *)
Definition contains_pattern (pat : string) : regex :=
  cat (map (fun a => if (code a =? 46)%N then Chr dot else Chr (eqb_ci a)) (chars pat)).

Definition str_contains (pat : string) (s : string) : bool :=
  match re_search (contains_pattern pat) s with Some _ => true | None => false end.

(** [df.iloc[0] if len(df) > 0 else None] *)
Definition first_row {A} (df : list A) : option A := head df.

Definition _exact_address_match (self : PlutoLookupClient)
    (street_addr bcode : string) : option Parcel :=
  first_row
    (List.filter (fun row => String.eqb (Borough row) bcode
                        && str_contains street_addr (astype_str (Address row)))
            (pluto self)).

(** [address_list_by_boro.get(bcode, [])], the table built by
    [__init__]. *)
Definition address_list_by_boro (self : PlutoLookupClient) (b : string)
    : list string :=
  map (fun row => astype_str (Address row))
      (List.filter (fun row => String.eqb (Borough row) b) (pluto self)).

Definition same_address (a : option string) (s : string) : bool :=
  match a with Some a => String.eqb a s | None => false end.

Definition is_yes (v : string) : bool :=
  String.eqb (str (map upper (chars v))) "YES".

Definition _get_ms4_attributes (self : PlutoLookupClient) (pt : Point)
    : list string :=
  match List.filter (fun row => contains row pt) (ms4 self) with
  | [] => []
  | row :: _ =>
      (if is_yes (FLOATABLES row) then ["floatables"] else [])
      ++ (if is_yes (PATHOGENS row) then ["pathogens"] else [])
      ++ (if is_yes (NITROGEN row) then ["nitrogen"] else [])
      ++ (if is_yes (PHOSPHORUS row) then ["phosphorus"] else [])
  end.

Definition is_full_site (a : option area) : bool :=
  match a with Some FULL_SITE => true | _ => false end.

(* =================================================================== *)
(** ** src/models/models.py *)
(* =================================================================== *)

(** A fitted pipeline, through the one thing the classifier asks of
    it: [predict_proba([text])[0, 1]]. *)
Definition predictor : Type := string -> Q.

(** The files of the file system that hold a pipeline, by path. *)
Definition files : Type := gmap string predictor.

(** [models_dir / name] for the two file names [load_models] and
    [save_model] build, a label followed by ".joblib".  [pathlib]
    normalises its operands (a leading "./" of [name] is dropped, an
    absolute [name] is taken alone); a label of letters, digits and
    underscores ([plain_label]) gives a [name] it leaves as it is. *)
Definition path_join (dir name : string) : string := dir ++ "/" ++ name.

Definition load_models (fs : files) (models_dir : string)
    : gmap string predictor :=
  fold_left
    (fun models key =>
       let path := path_join models_dir (key ++ ".joblib") in
       match fs !! path with
       | Some model => <[key := model]> models
       | None => models
       end)
    ["table_2_2_activity"; "new_connection"] ∅.

(** [save_model]: [joblib.dump] writes the pipeline to a file named
    after the label, except that the label "Vv" is saved as
    new_connection.joblib. *)
Definition save_model (model : predictor) (label_name : string)
    (models_dir : string) (fs : files) : files :=
  let filename :=
    if String.eqb label_name "Vv" then "new_connection.joblib"
    else String.append label_name ".joblib" in
  let path := path_join models_dir filename in
  <[path := model]> fs.

(* =================================================================== *)
(** ** src/classify.py *)
(* =================================================================== *)

(** The value of [NNI]: [False] or a list of pollutant tags. *)
Inductive nni : Type :=
| NNI_False
| NNI_list (tags : list string).

Record FinalLabels : Type := {
  ESC : bool;
  WQ : bool;
  RR : bool;
  NNI : nni;
  Vv : bool;
}.

Record IntermediateLabels : Type := {
  disturb_20000_sf : bool;
  new_imp_5000_sf : bool;
  new_imp : bool;
  table_2_2_activity : bool;
  in_ms4 : bool;
  pollutants_of_concern : list string;
}.

Record StormwaterClassifier : Type := {
  lookup : PlutoLookupClient;
  models : gmap string predictor;
}.

Section Classifier.

(** [difflib.get_close_matches(word, possibilities, n, cutoff)], on a
    list of strings.  ([difflib] raises a [TypeError] on a possibility
    that is not a string, which is what the address list holds for a
    parcel without an address; this function has no such case, and
    nothing here says what the resolver does then.) *)
Variable get_close_matches : string -> list string -> nat -> Q -> list string.

Definition _fuzzy_address_match (self : PlutoLookupClient)
    (street_addr bcode : string) : option Parcel :=
  let choices := address_list_by_boro self bcode in
  match get_close_matches street_addr choices 1 0.6%Q with
  | [] => None
  | match_addr :: _ =>
      first_row
        (List.filter (fun row => String.eqb (Borough row) bcode
                            && same_address (Address row) match_addr)
                (pluto self))
  end.

Definition lookup_location_features (self : PlutoLookupClient)
    (address_obj : ParsedDescription) : traced Loc.t :=
  if not_str (street_address address_obj) || not_str (borough address_obj)
  then mret default_features
  else
    let street_address := default "" (street_address address_obj) in
    let borough_name := default "" (borough address_obj) in
    match BORO_TO_CODE !! borough_name with
    | None => mret default_features
    | Some bcode =>
        (* exact match first *)
        tell (ExactQuery street_address bcode) ;;
        match_ ← (match _exact_address_match self street_address bcode with
                   | Some row => mret (Some row)
                   | None =>
                       (* fall back to fuzzy matching *)
                       tell (FuzzyQuery street_address bcode 0.6%Q) ;;
                       mret (_fuzzy_address_match self street_address bcode)
                   end);
        match match_ with
        | None => mret default_features
        | Some row =>
            let pt := centroid row in
            tell (ContainsQuery pt) ;;
            let in_ms4 := existsb (fun area => contains area pt) (ms4 self) in
            tell (ContainsQuery pt) ;;
            let pollutants := _get_ms4_attributes self pt in
            let lot_area := LotArea row in
            let full_site :=
              if is_full_site (disturbed_area_sf address_obj)
              then lot_area else None in
            mret {| Loc.in_ms4_area := in_ms4;
                   Loc.pollutants_of_concern := pollutants;
                   Loc.lot_area_sf := lot_area;
                   Loc.full_site_disturbed_sf := full_site |}
        end
    end.

(** [StormwaterClassifier.__init__], with the class attribute
    [_cached_models] passed in and out. *)
Definition __init__ (_cached_models : option (gmap string predictor))
    (fs : files) (lookup_client : PlutoLookupClient) (models_dir : string)
    : StormwaterClassifier * option (gmap string predictor) :=
  let _cached_models :=
    match _cached_models with
    | None => Some (load_models fs models_dir)
    | Some _ => _cached_models
    end in
  ({| lookup := lookup_client; models := default ∅ _cached_models |},
   _cached_models).

Definition _loc_features (self : StormwaterClassifier)
    (parsed : ParsedDescription) : traced Loc.t :=
  if not_str (street_address parsed) || not_str (borough parsed)
  then mret default_features
  else lookup_location_features (lookup self) parsed.

Definition _predict (self : StormwaterClassifier) (key : string)
    (text : string) : bool :=
  match models self !! key with
  | None => false
  | Some model => Qle_bool 0.5 (model text)
  end.

(** [x or y] where [x] is a number or [None]: [y] when [x] is [None]
    or zero. *)
Definition py_or (x y : option Z) : option Z :=
  match x with
  | Some v => if (v =? 0)%Z then y else x
  | None => y
  end.

Definition _compute_intermediates (self : StormwaterClassifier)
    (parsed : ParsedDescription) (loc : Loc.t) : IntermediateLabels * bool :=
  let disturbed :=
    match disturbed_area_sf parsed with
    | Some FULL_SITE => Loc.full_site_disturbed_sf loc
    | Some (Num sf) => py_or (Some sf) (Loc.lot_area_sf loc)
    | None => py_or None (Loc.lot_area_sf loc)
    end in
  let new_imp := default 0%Z (py_or (new_impervious_sf parsed) (Some 0%Z)) in
  let disturbs_20k :=
    match disturbed with
    | Some d => (20000 <=? d)%Z
    | None => false
    end in
  let creates_5k_new_imp := (5000 <=? new_imp)%Z in
  let new_imp_any := (0 <? new_imp)%Z in
  let is_table_22 := _predict self "table_2_2_activity" (text parsed) in
  let vv_pred := _predict self "new_connection" (text parsed) in
  ({| disturb_20000_sf := disturbs_20k;
      new_imp_5000_sf := creates_5k_new_imp;
      new_imp := new_imp_any;
      table_2_2_activity := is_table_22;
      in_ms4 := Loc.in_ms4_area loc;
      pollutants_of_concern := Loc.pollutants_of_concern loc |},
   vv_pred).

Definition _compute_final_labels (I : IntermediateLabels) (vv_pred : bool)
    : FinalLabels :=
  let ESC := disturb_20000_sf I || new_imp_5000_sf I in
  let RR := (new_imp I || new_imp_5000_sf I) && negb (table_2_2_activity I) in
  let WQ := RR in
  let NNI :=
    if new_imp I && disturb_20000_sf I && negb (table_2_2_activity I) && in_ms4 I
    then NNI_list (pollutants_of_concern I)
    else NNI_False in
  let Vv := vv_pred in
  {| ESC := ESC; WQ := WQ; RR := RR; NNI := NNI; Vv := Vv |}.

Definition classify_with_explanation (self : StormwaterClassifier)
    (raw_text : string) : FinalLabels * IntermediateLabels :=
  let parsed := parse_description raw_text in
  let loc := fst (_loc_features self parsed) in
  let '(intermediate, vv_pred) := _compute_intermediates self parsed loc in
  let final := _compute_final_labels intermediate vv_pred in
  (final, intermediate).

Definition classify (self : StormwaterClassifier) (raw_text : string)
    : FinalLabels :=
  let parsed := parse_description raw_text in
  let loc := fst (_loc_features self parsed) in
  let '(intermediate, vv_pred) := _compute_intermediates self parsed loc in
  let final := _compute_final_labels intermediate vv_pred in
  final.

End Classifier.

(* ===================================================================== *)
(** ** scripts/eval_classifier.py: to_bool *)
(* ===================================================================== *)

Inductive pyfloat : Type :=
| NaN
| Inf (negative : bool)
| Fin (q : Q).

(** The values [to_bool] tells apart: [bool], [int], [float], [str],
    and any other object, given by its [str()]. *)
Inductive pyval : Type :=
| VBool (b : bool)
| VInt (z : Z)
| VFloat (f : pyfloat)
| VStr (s : string)
| VNone
| VObject (repr : string).

Inductive exn : Type :=
| ValueError (msg : string)
| OverflowError (msg : string).

Inductive result (A : Type) : Type :=
| Return (a : A)
| Raise (e : exn).
Arguments Return {A} a.
Arguments Raise {A} e.

(** [int(x)] on a float: truncation toward zero. *)
Definition int_of_float (f : pyfloat) : result Z :=
  match f with
  | NaN => Raise (ValueError "cannot convert float NaN to integer")
  | Inf _ => Raise (OverflowError "cannot convert float infinity to integer")
  | Fin q => Return (Qnum q ÷ Zpos (Qden q))%Z
  end.

Definition py_str (val : pyval) : string :=
  match val with
  | VStr s => s
  | VNone => "None"
  | VObject repr => repr
  | VBool b => if b then "True" else "False"
  | VInt _ | VFloat _ => ""   (* not reached: numbers return before str() *)
  end.

Fixpoint lstrip (l : list ascii) : list ascii :=
  match l with
  | c :: l' => if is_space c then lstrip l' else l
  | [] => []
  end.

Definition strip (s : string) : string :=
  str (rev (lstrip (rev (lstrip (chars s))))).

Definition lower_str (s : string) : string := str (map lower (chars s)).

(** [val in (...)] for a tuple of strings *)
Definition in_tuple (val : string) (t : list string) : bool :=
  existsb (String.eqb val) t.

Definition to_bool (val : pyval) : result Z :=
  match val with
  | VBool b => Return (if b then 1 else 0)%Z
  | VInt z => Return z
  | VFloat f => int_of_float f
  | _ =>
      let val := lower_str (strip (py_str val)) in
      if in_tuple val ["true"; "1"; "yes"; "y"] then Return 1%Z
      else if in_tuple val ["false"; "0"; "no"; "n"; ""; "none"] then Return 0%Z
      else Raise (ValueError ("Cannot interpret boolean value: " ++ val))
  end.

(** In [evaluate_classifier], the predicted NNI as a label:
    [0 if (pred_val is False or pred_val == [] or pred_val is None) else 1]. *)
Definition pred_nni (pred_val : nni) : Z :=
  match pred_val with
  | NNI_False => 0
  | NNI_list [] => 0
  | NNI_list (_ :: _) => 1
  end.

(* ===================================================================== *)
(** ** Notions used in the statements *)
(* ===================================================================== *)

(** [w] is at the start of [s], [w] is somewhere in [s], case ignored. *)
Fixpoint prefix_ci (w s : list ascii) : bool :=
  match w, s with
  | [], _ => true
  | a :: w', c :: s' => eqb_ci a c && prefix_ci w' s'
  | _ :: _, [] => false
  end.

Fixpoint substring_ci (w s : list ascii) : bool :=
  prefix_ci w s
  || match s with
     | _ :: s' => substring_ci w s'
     | [] => false
     end.


(** A string made of the characters a parsed street address is made of. *)
Definition street_string (s : string) : bool := forallb street_char (chars s).

(** Every parcel of the store has an address: the address column holds
    no missing value. *)
Definition addresses_present (self : PlutoLookupClient) : Prop :=
  forall row, In row (pluto self) -> Address row <> None.


(** A label made of ASCII letters, digits and underscores. *)
Definition plain_label (label_name : string) : bool :=
  forallb (fun c => is_ascii_alpha c || is_digit c || (code c =? 95)%N)
          (chars label_name).

(** The features read off a matched parcel. *)
Definition features_of (self : PlutoLookupClient) (address_obj : ParsedDescription)
    (row : Parcel) : Loc.t :=
  {| Loc.in_ms4_area := existsb (fun area => contains area (centroid row)) (ms4 self);
     Loc.pollutants_of_concern := _get_ms4_attributes self (centroid row);
     Loc.lot_area_sf := LotArea row;
     Loc.full_site_disturbed_sf :=
       if is_full_site (disturbed_area_sf address_obj) then LotArea row else None |}.

(** The disturbed-area quantity used by the rule engine, in the words of
    the specification: the parsed number whenever there is one. *)
Definition disturbed_used_stated (parsed : ParsedDescription) (loc : Loc.t)
    : option Z :=
  match disturbed_area_sf parsed with
  | Some FULL_SITE => Loc.full_site_disturbed_sf loc
  | Some (Num sf) => Some sf
  | None => Loc.lot_area_sf loc
  end.

(** The same quantity with a parsed zero treated as no number. *)
Definition disturbed_used (parsed : ParsedDescription) (loc : Loc.t)
    : option Z :=
  match disturbed_area_sf parsed with
  | Some FULL_SITE => Loc.full_site_disturbed_sf loc
  | Some (Num sf) => if (sf =? 0)%Z then Loc.lot_area_sf loc else Some sf
  | None => Loc.lot_area_sf loc
  end.

Definition at_least_20000 (q : option Z) : bool :=
  match q with
  | Some d => (20000 <=? d)%Z
  | None => false
  end.

(** The strings [to_bool] recognizes after trimming and lower-casing. *)
Definition recognized_true : list string := ["true"; "1"; "yes"; "y"].
Definition recognized_false : list string := ["false"; "0"; "no"; "n"; ""; "none"].

Definition normalized (val : pyval) : string := lower_str (strip (py_str val)).

Definition is_number (val : pyval) : bool :=
  match val with
  | VBool _ | VInt _ | VFloat _ => true
  | _ => false
  end.

(** The 256 characters, and a check that a class lies within another. *)
Definition all_ascii : list ascii := map ascii_of_nat (seq 0 256).

Definition class_sub (p P : ascii -> bool) : bool :=
  forallb (fun c => implb (p c) (P c)) all_ascii.

Fixpoint classes_within_b (P : ascii -> bool) (r : regex) : bool :=
  match r with
  | Eps | Bnd => true
  | Chr p | Rep _ p => class_sub p P
  | Seq r1 r2 | Alt r1 r2 => classes_within_b P r1 && classes_within_b P r2
  | Grp r1 => classes_within_b P r1
  end.

(** [w] is a contiguous part of [s]. *)
Definition part_of (w s : list ascii) : Prop := exists a b, s = a ++ w ++ b.

(** The pollutant tags, in the order the lookup appends them. *)
Definition vocabulary : list string :=
  ["floatables"; "pathogens"; "nitrogen"; "phosphorus"].

(** A lower bound on the number of characters a match of [r] consumes,
    and the test that group 1 of [r] holds at least [n] characters. *)
Fixpoint min_len (r : regex) : nat :=
  match r with
  | Eps | Bnd | Rep _ _ => 0
  | Chr _ => 1
  | Seq r1 r2 => min_len r1 + min_len r2
  | Alt r1 r2 => Nat.min (min_len r1) (min_len r2)
  | Grp r1 => min_len r1
  end.

Fixpoint group_at_least (n : nat) (r : regex) : bool :=
  match r with
  | Grp r1 => Nat.leb n (min_len r1)
  | Seq r1 r2 | Alt r1 r2 => group_at_least n r1 && group_at_least n r2
  | _ => true
  end.

(** What [str.contains] tests at one place and over a string, written
    on the characters: a dot of the pattern takes any character but a
    newline, any other character takes itself in either case. *)
Fixpoint prefix_pat (pat s : list ascii) : bool :=
  match pat, s with
  | [], _ => true
  | a :: pat', c :: s' =>
      (if (code a =? 46)%N then dot c else eqb_ci a c) && prefix_pat pat' s'
  | _ :: _, [] => false
  end.

Fixpoint substring_pat (pat s : list ascii) : bool :=
  prefix_pat pat s
  || match s with
     | _ :: s' => substring_pat pat s'
     | [] => false
     end.

(** [strip] on the characters. *)
Definition trimmed (l : list ascii) : list ascii := rev (lstrip (rev (lstrip l))).

(** *** Data for the examples *)

(** A [get_close_matches] that finds nothing, for examples in which the
    fuzzy step is not reached or does not matter. *)
Definition no_close_matches : string -> list string -> nat -> Q -> list string :=
  fun _ _ _ _ => [].

(** One Brooklyn parcel of 30,000 square feet inside a drainage area
    that flags no pollutant, and one Staten Island parcel outside it. *)
Definition example_client : PlutoLookupClient :=
  {| pluto :=
       [ {| Borough := "BK"; Address := Some "123 MAIN STREET";
            LotArea := Some 30000%Z; centroid := (-73.95, 40.65)%Q |};
         {| Borough := "SI"; Address := Some "460 NEW DORP LANE";
            LotArea := Some 12000%Z; centroid := (-74.11, 40.57)%Q |} ];
     ms4 :=
       [ {| contains := fun pt => Qle_bool (-74) (fst pt);
            FLOATABLES := "NO"; PATHOGENS := "NO";
            NITROGEN := "NO"; PHOSPHORUS := "NO" |} ] |}.

(** A classifier with no predictor loaded. *)
Definition example_classifier : StormwaterClassifier :=
  {| lookup := example_client; models := ∅ |}.

(** A classifier whose activity predictor gives every text the
    probability 0.9. *)
Definition exempting_classifier : StormwaterClassifier :=
  {| lookup := example_client;
     models := {[ "table_2_2_activity" := fun _ : string => 0.9%Q ]} |}.

(* ===================================================================== *)
(** ** The matcher *)
(* ===================================================================== *)

Section Matcher.

Implicit Types (r : regex) (k : cfg) (s : list ascii) (prev : option ascii).

Lemma positions_self prev s : In (prev, s) (positions prev s).
Proof. destruct s; simpl; auto. Qed.

Lemma positions_trans prev s k k' :
  In k (positions prev s) ->
  In k' (positions (fst k) (snd k)) ->
  In k' (positions prev s).
Proof.
  revert prev. induction s as [|c s IH]; intros prev Hk Hk'.
  - simpl in Hk. destruct Hk as [<-|[]]. exact Hk'.
  - simpl in Hk. destruct Hk as [<-|Hk]; [exact Hk'|].
    simpl. right. eapply IH; eauto.
Qed.

Lemma rep_positions g p prev s k :
  In k (rep g p prev s) -> In k (positions prev s).
Proof.
  revert prev. induction s as [|c s IH]; intros prev H; simpl in H.
  - destruct H as [<-|[]]. simpl. auto.
  - destruct (p c).
    + destruct g.
      * apply in_app_or in H. destruct H as [H|[<-|[]]].
        -- simpl. right. apply IH, H.
        -- apply positions_self.
      * destruct H as [<-|H]; [apply positions_self|].
        simpl. right. apply IH, H.
    + destruct H as [<-|[]]. apply positions_self.
Qed.

(** A match ends at a position of the subject after its start. *)
Lemma ends_positions r k e :
  In e (ends r k) -> In (fst e) (positions (fst k) (snd k)).
Proof.
  revert k e. induction r as [|p|r1 IH1 r2 IH2|r1 IH1 r2 IH2|g p|r1 IH1|];
    intros [prev s] e H; simpl in H |- *.
  - destruct H as [<-|[]]. apply positions_self.
  - destruct s as [|c s']; [contradiction|].
    destruct (p c); [|contradiction].
    destruct H as [<-|[]]. right. apply positions_self.
  - apply in_flat_map in H. destruct H as (e1 & H1 & H).
    apply in_map_iff in H. destruct H as (e2 & <- & H2).
    apply IH1 in H1. apply IH2 in H2. simpl in *.
    eapply positions_trans; eauto.
  - apply in_app_or in H. destruct H as [H|H]; [apply IH1 in H|apply IH2 in H]; exact H.
  - apply in_map_iff in H. destruct H as (k' & <- & H).
    apply rep_positions in H. exact H.
  - apply in_map_iff in H. destruct H as (e1 & <- & H). apply IH1 in H. exact H.
  - destruct (xorb _ _); [|contradiction]. destruct H as [<-|[]]. apply positions_self.
Qed.

Lemma matches_seq r1 r2 k :
  matches_at (Seq r1 r2) k <->
  exists e1, In e1 (ends r1 k) /\ matches_at r2 (fst e1).
Proof.
  unfold matches_at. simpl. split.
  - intros H. destruct (flat_map _ _) as [|e l] eqn:E; [congruence|].
    assert (Hin : In e (e :: l)) by (left; reflexivity).
    rewrite <- E in Hin. apply in_flat_map in Hin.
    destruct Hin as (e1 & H1 & H2). exists e1. split; [exact H1|].
    intros Hnil. rewrite Hnil in H2. contradiction.
  - intros (e1 & H1 & H2) Hnil.
    destruct (ends r2 (fst e1)) as [|e2 l] eqn:E; [congruence|].
    assert (Hin : In (fst e2, later (snd e1) (snd e2))
                     (flat_map (fun e1 => map (fun e2 => (fst e2, later (snd e1) (snd e2)))
                                             (ends r2 (fst e1))) (ends r1 k))).
    { apply in_flat_map. exists e1. split; [exact H1|]. rewrite E. left. reflexivity. }
    rewrite Hnil in Hin. contradiction.
Qed.

Lemma matches_grp r k : matches_at (Grp r) k <-> matches_at r k.
Proof.
  unfold matches_at. simpl. destruct (ends r k); simpl; split; intros H;
    first [exact H | discriminate].
Qed.

Lemma matches_alt r1 r2 k :
  matches_at (Alt r1 r2) k <-> matches_at r1 k \/ matches_at r2 k.
Proof.
  unfold matches_at. simpl. destruct (ends r1 k); simpl; split.
  - auto.
  - intros [H|H]; [congruence|exact H].
  - intros _. left. congruence.
  - congruence.
Qed.

(** Groups do not change where a pattern matches. *)
Lemma matches_seq_grp r1 r2 k :
  matches_at (Seq (Grp r1) r2) k <-> matches_at (Seq r1 r2) k.
Proof.
  rewrite !matches_seq. simpl. split.
  - intros (e1 & H1 & H2). apply in_map_iff in H1.
    destruct H1 as (e & <- & H1). exists e. auto.
  - intros (e1 & H1 & H2).
    exists (fst e1, Some (consumed k (snd (fst e1)))). split; [|exact H2].
    apply in_map_iff. exists e1. auto.
Qed.

Lemma matches_seq_mono r1 r2 r2' k :
  (forall k', matches_at r2 k' -> matches_at r2' k') ->
  matches_at (Seq r1 r2) k -> matches_at (Seq r1 r2') k.
Proof.
  intros Hm. rewrite !matches_seq. intros (e1 & H1 & H2). exists e1. auto.
Qed.

Lemma occurs_seq_l r1 r2 prev s : occurs (Seq r1 r2) prev s -> occurs r1 prev s.
Proof.
  intros (k & Hk & H). exists k. split; [exact Hk|].
  apply matches_seq in H. destruct H as (e1 & H1 & _).
  intros Hnil. rewrite Hnil in H1. contradiction.
Qed.

Lemma occurs_seq_r r1 r2 prev s : occurs (Seq r1 r2) prev s -> occurs r2 prev s.
Proof.
  intros (k & Hk & H). apply matches_seq in H. destruct H as (e1 & H1 & H2).
  exists (fst e1). split; [|exact H2].
  apply ends_positions in H1. eapply positions_trans; eauto.
Qed.

Lemma occurs_grp r prev s : occurs (Grp r) prev s -> occurs r prev s.
Proof. intros (k & Hk & H). exists k. split; [exact Hk|]. apply matches_grp, H. Qed.

Lemma occurs_mono r r' prev s :
  (forall k, matches_at r k -> matches_at r' k) ->
  occurs r prev s -> occurs r' prev s.
Proof. intros Hm (k & Hk & H). exists k. auto. Qed.

(** [search] finds a match exactly when the pattern matches somewhere. *)
Lemma search_at_None r prev s :
  search_at r prev s = None <-> ~ occurs r prev s.
Proof.
  revert prev. induction s as [|c s IH]; intros prev; simpl.
  - destruct (ends r (prev, [])) as [|e l] eqn:E; split.
    + intros _ (k & [<-|[]] & H). apply H, E.
    + reflexivity.
    + discriminate.
    + intros H. exfalso. apply H. exists (prev, []). split; [left; reflexivity|].
      unfold matches_at. rewrite E. discriminate.
  - destruct (ends r (prev, c :: s)) as [|e l] eqn:E; split.
    + intros Hs (k & [<-|Hk] & H); [apply H, E|].
      apply (proj1 (IH _) Hs). exists k. auto.
    + intros H. apply IH. intros (k & Hk & Hm). apply H. exists k. split; [right; exact Hk|exact Hm].
    + discriminate.
    + intros H. exfalso. apply H. exists (prev, c :: s). split; [left; reflexivity|].
      unfold matches_at. rewrite E. discriminate.
Qed.

Lemma search_at_Some r prev s m :
  search_at r prev s = Some m -> occurs r prev s.
Proof.
  revert prev. induction s as [|c s IH]; intros prev; simpl;
    destruct (ends r (prev, _)) as [|e l] eqn:E; intros H; try discriminate.
  - exists (prev, []). split; [left; reflexivity|].
    unfold matches_at. rewrite E. discriminate.
  - apply IH in H. destruct H as (k & Hk & H). exists k. split; [right; exact Hk|exact H].
  - exists (prev, c :: s). split; [left; reflexivity|].
    unfold matches_at. rewrite E. discriminate.
Qed.

Lemma search_at_inv r prev s m :
  search_at r prev s = Some m ->
  exists k e, In k (positions prev s) /\ In e (ends r k) /\
              group0 m = consumed k (snd (fst e)) /\ group1 m = snd e.
Proof.
  revert prev. induction s as [|c s IH]; intros prev; simpl;
    destruct (ends r (prev, _)) as [|e l] eqn:E; intros H; try discriminate.
  - injection H as <-. exists (prev, []), e. rewrite E. simpl. auto.
  - apply IH in H. destruct H as (k & e & Hk & H). exists k, e. auto.
  - injection H as <-. exists (prev, c :: s), e. rewrite E. simpl. auto.
Qed.

(** [findall] returns nothing only when the pattern matches nowhere. *)
Lemma findall_at_nil r prev s :
  findall_at r 0 prev s = [] -> ~ occurs r prev s.
Proof.
  revert prev. induction s as [|c s IH]; intros prev; simpl;
    destruct (ends r (prev, _)) as [|e l] eqn:E; intros H; try discriminate.
  - intros (k & [<-|[]] & Hm). apply Hm, E.
  - intros (k & [<-|Hk] & Hm); [apply Hm, E|].
    apply (IH _ H). exists k. auto.
Qed.

Lemma later_Some g1 g2 : g1 <> None \/ g2 <> None -> later g1 g2 <> None.
Proof. destruct g2; simpl; [discriminate|]. intros [H|H]; congruence. Qed.

(** A pattern that cannot avoid its group always sets it. *)
Lemma group_participates r k e :
  through_group r = true -> In e (ends r k) -> snd e <> None.
Proof.
  revert k e. induction r as [|p|r1 IH1 r2 IH2|r1 IH1 r2 IH2|g p|r1 IH1|];
    intros k e Ht H; simpl in Ht, H; try discriminate.
  - apply in_flat_map in H. destruct H as (e1 & H1 & H).
    apply in_map_iff in H. destruct H as (e2 & <- & H2). simpl.
    apply later_Some. apply orb_true_iff in Ht. destruct Ht as [Ht|Ht]; eauto.
  - apply andb_true_iff in Ht. destruct Ht as [Ht1 Ht2].
    apply in_app_or in H. destruct H; eauto.
  - apply in_map_iff in H. destruct H as (e1 & <- & _). discriminate.
Qed.

Lemma rep_within g p prev s k :
  In k (rep g p prev s) ->
  exists w, s = w ++ snd k /\ forallb p w = true.
Proof.
  revert prev. induction s as [|c s IH]; intros prev H; simpl in H.
  - destruct H as [<-|[]]. exists []. auto.
  - destruct (p c) eqn:Pc.
    + assert (Hcases : k = (prev, c :: s) \/ In k (rep g p (Some c) s)).
      { destruct g; [apply in_app_or in H; destruct H as [H|[<-|[]]]|destruct H as [<-|H]]; auto. }
      destruct Hcases as [->|Hk].
      * exists []. auto.
      * apply IH in Hk. destruct Hk as (w & -> & Hw).
        exists (c :: w). simpl. rewrite Pc, Hw. auto.
    + destruct H as [<-|[]]. exists []. auto.
Qed.

Lemma consumed_app prev w s : consumed (prev, w ++ s) s = w.
Proof.
  unfold consumed. simpl. rewrite length_app, Nat.add_sub.
  rewrite firstn_app, Nat.sub_diag, firstn_all. simpl. apply app_nil_r.
Qed.

(** The characters a match consumes, and those its group holds, belong
    to the classes of the pattern. *)
Lemma ends_within P r k e :
  classes_within P r -> In e (ends r k) ->
  (exists w, snd k = w ++ snd (fst e) /\ forallb P w = true)
  /\ (forall g, snd e = Some g -> forallb P g = true).
Proof.
  revert k e. induction r as [|p|r1 IH1 r2 IH2|r1 IH1 r2 IH2|g p|r1 IH1|];
    intros [prev s] e Hc H; simpl in Hc, H.
  - destruct H as [<-|[]]. split; [exists []; auto|discriminate].
  - destruct s as [|c s']; [contradiction|].
    destruct (p c) eqn:Pc; [|contradiction].
    destruct H as [<-|[]]. split; [|discriminate].
    exists [c]. simpl. rewrite (Hc _ Pc). auto.
  - destruct Hc as [Hc1 Hc2].
    apply in_flat_map in H. destruct H as (e1 & H1 & H).
    apply in_map_iff in H. destruct H as (e2 & <- & H2).
    destruct (IH1 _ _ Hc1 H1) as [(w1 & E1 & Hw1) Hg1].
    destruct (IH2 _ _ Hc2 H2) as [(w2 & E2 & Hw2) Hg2].
    simpl in *. split.
    + exists (w1 ++ w2). rewrite E1, E2, app_assoc, forallb_app, Hw1, Hw2. auto.
    + intros g. unfold later. destruct (snd e2); [apply Hg2|apply Hg1].
  - destruct Hc as [Hc1 Hc2].
    apply in_app_or in H. destruct H; eauto.
  - apply in_map_iff in H. destruct H as (k' & <- & H).
    apply rep_within in H. destruct H as (w & E & Hw). simpl in *.
    split; [|discriminate]. exists w. split; [exact E|].
    apply forallb_forall. intros c Hin.
    rewrite forallb_forall in Hw. auto.
  - apply in_map_iff in H. destruct H as (e1 & <- & H).
    destruct (IH1 _ _ Hc H) as [(w & E & Hw) _]. simpl in *.
    split; [eauto|].
    intros g [= <-]. rewrite E, consumed_app. exact Hw.
  - destruct (xorb _ _); [|contradiction]. destruct H as [<-|[]].
    split; [exists []; auto|discriminate].
Qed.

End Matcher.

Lemma all_ascii_complete (c : ascii) : In c all_ascii.
Proof.
  assert (H : existsb (Ascii.eqb c) all_ascii = true)
    by (destruct c as [[] [] [] [] [] [] [] []]; vm_compute; reflexivity).
  apply existsb_exists in H. destruct H as (x & Hx & E).
  apply Ascii.eqb_eq in E. subst. exact Hx.
Qed.

Lemma class_sub_sound p P :
  class_sub p P = true -> forall c, p c = true -> P c = true.
Proof.
  unfold class_sub. rewrite forallb_forall. intros H c Pc.
  specialize (H c (all_ascii_complete c)). rewrite Pc in H. exact H.
Qed.

Lemma classes_within_sound P r :
  classes_within_b P r = true -> classes_within P r.
Proof.
  induction r as [|p|r1 IH1 r2 IH2|r1 IH1 r2 IH2|g p|r1 IH1|]; simpl; intros H;
    try exact I; try (apply class_sub_sound; exact H);
    try (apply andb_true_iff in H; destruct H; split; auto).
  auto.
Qed.

(* ===================================================================== *)
(** ** The parser *)
(* ===================================================================== *)

Lemma first_match_None pats text :
  first_match pats text = None <-> Forall (fun r => re_search r text = None) pats.
Proof.
  induction pats as [|r pats IH]; simpl.
  - split; auto.
  - destruct (re_search r text) eqn:E; split.
    + discriminate.
    + intros H. inversion H. congruence.
    + intros H. constructor; [exact E|]. apply IH, H.
    + intros H. inversion H. apply IH. assumption.
Qed.

Lemma first_match_inv pats text m :
  first_match pats text = Some m ->
  exists r, In r pats /\ re_search r text = Some m.
Proof.
  induction pats as [|r pats IH]; simpl; [discriminate|].
  destruct (re_search r text) eqn:E.
  - intros [= <-]. exists r. auto.
  - intros H. destruct (IH H) as (r' & Hin & Hr'). exists r'. auto.
Qed.

Lemma matches_seq_eps r k : matches_at (Seq r Eps) k <-> matches_at r k.
Proof.
  rewrite matches_seq. split.
  - intros (e1 & H1 & _) Hnil. rewrite Hnil in H1. contradiction.
  - intros H. unfold matches_at in H. destruct (ends r k) as [|e l] eqn:E; [congruence|].
    exists e. split; [left; reflexivity|]. unfold matches_at. simpl. discriminate.
Qed.

Lemma matches_unit_sf_short k : matches_at unit_sf_short k -> matches_at unit_sf k.
Proof.
  unfold unit_sf_short, unit_sf, alt. cbn [fold_right].
  rewrite !matches_alt. tauto.
Qed.

Lemma matches_quantity_short k : matches_at quantity_short k -> matches_at quantity k.
Proof.
  unfold quantity_short, quantity, cat. cbn [fold_right].
  apply matches_seq_mono. intros k1. apply matches_seq_mono. intros k2.
  rewrite !matches_seq_eps. apply matches_unit_sf_short.
Qed.

(** The quantity token and [NUMBER_SF_PATTERN] differ by the place of the
    group only. *)
Lemma matches_NUMBER_SF_PATTERN k :
  matches_at quantity k <-> matches_at NUMBER_SF_PATTERN k.
Proof.
  unfold quantity, NUMBER_SF_PATTERN, cat. cbn [fold_right].
  symmetry. apply matches_seq_grp.
Qed.

Lemma occurs_quantity prev s :
  occurs quantity prev s -> occurs NUMBER_SF_PATTERN prev s.
Proof. apply occurs_mono. intros k. apply matches_NUMBER_SF_PATTERN. Qed.

Lemma occurs_quantity_short prev s :
  occurs quantity_short prev s -> occurs NUMBER_SF_PATTERN prev s.
Proof.
  intros H. apply occurs_quantity. revert H. apply occurs_mono.
  intros k. apply matches_quantity_short.
Qed.

(** Walk along the concatenation down to the group that holds the
    quantity token. *)
Ltac to_quantity H :=
  repeat lazymatch type of H with
    | occurs (Seq (Grp _) _) _ _ => apply occurs_seq_l in H
    | occurs (Seq _ _) _ _ => apply occurs_seq_r in H
    | occurs (Grp _) _ _ => apply occurs_grp in H
    end;
  first [ exact (occurs_quantity _ _ H) | exact (occurs_quantity_short _ _ H) ].

(** Every explicit disturbance or impervious phrase contains a quantity
    token. *)
Lemma phrase_has_quantity r prev s :
  In r (DISTURB_PHRASES ++ IMPERVIOUS_PHRASES) ->
  occurs r prev s -> occurs NUMBER_SF_PATTERN prev s.
Proof.
  intros Hin H. simpl in Hin.
  destruct Hin as [<-|[<-|[<-|[<-|[<-|[]]]]]];
    unfold cat in H; cbn [fold_right] in H; to_quantity H.
Qed.

Lemma no_quantity_no_phrase text r :
  re_findall NUMBER_SF_PATTERN text = [] ->
  In r (DISTURB_PHRASES ++ IMPERVIOUS_PHRASES) ->
  re_search r text = None.
Proof.
  intros Hnil Hin. apply findall_at_nil in Hnil.
  apply search_at_None. intros H. apply Hnil.
  eapply phrase_has_quantity; eauto.
Qed.

Lemma no_quantity_no_first_match text pats :
  re_findall NUMBER_SF_PATTERN text = [] ->
  incl pats (DISTURB_PHRASES ++ IMPERVIOUS_PHRASES) ->
  first_match pats text = None.
Proof.
  intros Hnil Hincl. apply first_match_None. apply Forall_forall.
  intros r Hr. apply no_quantity_no_phrase; [exact Hnil|].
  apply Hincl. apply list_elem_of_In. exact Hr.
Qed.

Lemma digit_value_nonneg c : is_digit c = true -> (0 <= digit_value c)%Z.
Proof.
  unfold is_digit, in_range, digit_value. intros H.
  apply andb_true_iff in H. destruct H as [H _]. apply N.leb_le in H. lia.
Qed.

Lemma decimal_from_nonneg ds acc :
  (0 <= acc)%Z -> forallb is_digit ds = true ->
  (0 <= fold_left (fun acc c => (10 * acc + digit_value c)%Z) ds acc)%Z.
Proof.
  revert acc. induction ds as [|c ds IH]; intros acc Hacc H; simpl in *; [exact Hacc|].
  apply andb_true_iff in H. destruct H as [Hc Hds].
  apply IH; [|exact Hds]. pose proof (digit_value_nonneg c Hc). lia.
Qed.

Lemma decimal_nonneg ds : forallb is_digit ds = true -> (0 <= decimal ds)%Z.
Proof. apply decimal_from_nonneg. lia. Qed.

Lemma filter_forallb {A} (f : A -> bool) l : forallb f (List.filter f l) = true.
Proof.
  induction l as [|a l IH]; simpl; [reflexivity|].
  destruct (f a) eqn:E; simpl; [rewrite E|]; exact IH.
Qed.

Lemma _extract_sf_number_nonneg sf_string sf :
  _extract_sf_number sf_string = Some sf -> (0 <= sf)%Z.
Proof.
  unfold _extract_sf_number.
  pose proof (filter_forallb is_digit sf_string) as H.
  destruct (List.filter is_digit sf_string) as [|c ds]; [discriminate|].
  intros [= <-]. apply decimal_nonneg, H.
Qed.

#[local] Arguments first_match : simpl never.
#[local] Arguments any_match : simpl never.
#[local] Arguments re_findall : simpl never.
#[local] Arguments re_search : simpl never.
#[local] Arguments _extract_sf_number : simpl never.

Lemma chars_str l : chars (str l) = l.
Proof. apply list_ascii_of_string_of_list_ascii. Qed.

Lemma ADDRESS_PATTERN_classes : classes_within street_char ADDRESS_PATTERN.
Proof. apply classes_within_sound. vm_compute. reflexivity. Qed.

(** An extracted street address is made of the characters of the
    address pattern: letters, digits, dot, hyphen, apostrophe and white
    space.  Read as a pattern by [str.contains] it is well formed. *)
Lemma street_address_chars text addr :
  street_address (parse_description text) = Some addr ->
  forallb street_char (chars addr) = true.
Proof.
  unfold parse_description. cbn [street_address].
  destruct (re_search ADDRESS_PATTERN text) as [m|] eqn:E; [|discriminate].
  intros [= <-]. rewrite chars_str.
  apply search_at_inv in E. destruct E as (k & e & _ & He & _ & Hg).
  unfold group_1. rewrite Hg.
  destruct (snd e) as [g|] eqn:Eg; [|reflexivity].
  eapply (ends_within street_char); eauto using ADDRESS_PATTERN_classes.
Qed.

(** The group of a phrase pattern is always set when the pattern
    matches, so [m.group(1)] is a string. *)
Lemma search_group r text m :
  through_group r = true -> re_search r text = Some m ->
  exists g, group1 m = Some g.
Proof.
  intros Ht H. apply search_at_inv in H. destruct H as (k & e & _ & He & _ & Hg).
  pose proof (group_participates _ _ _ Ht He) as Hn.
  rewrite Hg. destruct (snd e); [eauto|congruence].
Qed.

Lemma patterns_through_group :
  forallb through_group
    ([ADDRESS_PATTERN; BOROUGH_PATTERN] ++ DISTURB_PHRASES ++ IMPERVIOUS_PHRASES)
  = true.
Proof. reflexivity. Qed.

(** What the parser returns for the disturbed area: the number of an
    explicit phrase, else the number of a single quantity token, else the
    sentinel for a full-site phrase, else nothing. *)
Lemma disturbed_area_sf_cases text :
  let explicit :=
    match first_match DISTURB_PHRASES text with
    | Some m => _extract_sf_number (group_1 m)
    | None => None
    end in
  let single :=
    match re_findall NUMBER_SF_PATTERN text with
    | [sf] => _extract_sf_number sf
    | _ => None
    end in
  disturbed_area_sf (parse_description text) =
  match explicit with
  | Some sf => Some (Num sf)
  | None =>
      match single with
      | Some sf => Some (Num sf)
      | None => if any_match FULL_SITE_PHRASES text then Some FULL_SITE else None
      end
  end.
Proof.
  cbv zeta. unfold parse_description. cbn [disturbed_area_sf].
  destruct (first_match DISTURB_PHRASES text) as [m|]; simpl.
  - destruct (_extract_sf_number (group_1 m)); simpl; [reflexivity|].
    destruct (re_findall NUMBER_SF_PATTERN text) as [|sf [|]]; simpl; try reflexivity.
    destruct (_extract_sf_number sf); reflexivity.
  - destruct (re_findall NUMBER_SF_PATTERN text) as [|sf [|]]; simpl; try reflexivity.
    destruct (_extract_sf_number sf); reflexivity.
Qed.

Lemma new_impervious_sf_cases text :
  new_impervious_sf (parse_description text) =
  match
    match first_match IMPERVIOUS_PHRASES text with
    | Some m => _extract_sf_number (group_1 m)
    | None => None
    end
  with
  | Some sf => Some sf
  | None => Some (if any_match NEW_BUILDING_PATTERNS text then 1 else 0)%Z
  end.
Proof.
  unfold parse_description. cbn [new_impervious_sf].
  destruct (first_match IMPERVIOUS_PHRASES text) as [m|]; simpl.
  - destruct (_extract_sf_number (group_1 m)); simpl; [reflexivity|].
    destruct (any_match NEW_BUILDING_PATTERNS text); reflexivity.
  - destruct (any_match NEW_BUILDING_PATTERNS text); reflexivity.
Qed.

(** C3, as the code has it.  For a text with no quantity-with-unit token
    the parser returns no number: the disturbed area is the entire-site
    sentinel when a full-site phrase matches and absent otherwise, and
    the new impervious area is the nominal 1 when a new-building phrase
    matches and 0 otherwise. *)
Theorem parse_without_quantity (text : string) :
  re_findall NUMBER_SF_PATTERN text = [] ->
  disturbed_area_sf (parse_description text)
  = (if any_match FULL_SITE_PHRASES text then Some FULL_SITE else None)
  /\ new_impervious_sf (parse_description text)
     = Some (if any_match NEW_BUILDING_PATTERNS text then 1 else 0)%Z.
Proof.
  intros Hnil. split.
  - rewrite disturbed_area_sf_cases. cbv zeta.
    rewrite (no_quantity_no_first_match text DISTURB_PHRASES Hnil)
      by (apply incl_appl, incl_refl).
    rewrite Hnil. reflexivity.
  - rewrite new_impervious_sf_cases.
    rewrite (no_quantity_no_first_match text IMPERVIOUS_PHRASES Hnil)
      by (apply incl_appr, incl_refl).
    reflexivity.
Qed.

Lemma parse_without_quantity_witness :
  re_findall NUMBER_SF_PATTERN "Interior renovation of an existing office" = []
  /\ disturbed_area_sf (parse_description "Interior renovation of an existing office") = None
  /\ new_impervious_sf (parse_description "Interior renovation of an existing office") = Some 0%Z.
Proof.
  split; [vm_compute; reflexivity|].
  exact (parse_without_quantity "Interior renovation of an existing office" eq_refl).
Defined.

(** C3 as stated fails: a text with no quantity token, a new-building
    phrase and a full-site phrase gets the nominal new impervious area 1
    and the entire-site sentinel. *)
Lemma parse_without_quantity_counterexample :
  re_findall NUMBER_SF_PATTERN
    "Construction of a new building; the entire site will be disturbed" = []
  /\ new_impervious_sf
       (parse_description
          "Construction of a new building; the entire site will be disturbed")
     = Some 1%Z
  /\ disturbed_area_sf
       (parse_description
          "Construction of a new building; the entire site will be disturbed")
     = Some FULL_SITE.
Proof. vm_compute. auto. Qed.



(* ===================================================================== *)
(** ** The rule engine *)
(* ===================================================================== *)

Section Rules.

Variable gcm : string -> list string -> nat -> Q -> list string.

Lemma classify_fst self text :
  classify gcm self text = fst (classify_with_explanation gcm self text).
Proof.
  unfold classify, classify_with_explanation.
  destruct (_compute_intermediates _ _ _). reflexivity.
Qed.

Lemma classify_with_explanation_eq self text :
  let parsed := parse_description text in
  let loc := fst (_loc_features gcm self parsed) in
  classify_with_explanation gcm self text
  = (_compute_final_labels (fst (_compute_intermediates self parsed loc))
                           (snd (_compute_intermediates self parsed loc)),
     fst (_compute_intermediates self parsed loc)).
Proof.
  cbv zeta. unfold classify_with_explanation.
  destruct (_compute_intermediates _ _ _). reflexivity.
Qed.

(** C2.  In every FinalLabels the rule engine computes, and so in the
    result of every classification, WQ equals RR. *)
Theorem WQ_equals_RR (self : StormwaterClassifier) (text : string) :
  (forall I vv_pred, WQ (_compute_final_labels I vv_pred)
                     = RR (_compute_final_labels I vv_pred))
  /\ WQ (classify gcm self text) = RR (classify gcm self text)
  /\ WQ (fst (classify_with_explanation gcm self text))
     = RR (fst (classify_with_explanation gcm self text)).
Proof.
  split; [reflexivity|].
  rewrite classify_fst, classify_with_explanation_eq. split; reflexivity.
Qed.

(** The pollutant list is empty exactly when no drainage area contains
    the point or the first one that does has no column equal to YES. *)
Lemma _get_ms4_attributes_nil self pt :
  _get_ms4_attributes self pt = [] <->
  match List.filter (fun row => contains row pt) (ms4 self) with
  | [] => True
  | row :: _ =>
      is_yes (FLOATABLES row) = false /\ is_yes (PATHOGENS row) = false
      /\ is_yes (NITROGEN row) = false /\ is_yes (PHOSPHORUS row) = false
  end.
Proof.
  unfold _get_ms4_attributes.
  destruct (List.filter _ (ms4 self)) as [|row rows]; [tauto|].
  destruct (is_yes (FLOATABLES row)), (is_yes (PATHOGENS row)),
    (is_yes (NITROGEN row)), (is_yes (PHOSPHORUS row)); simpl;
    split; intros H; try discriminate; try tauto;
    destruct H as (? & ? & ? & ?); discriminate.
Qed.

(** C1, as the code has it.  NNI is the pollutant tag list of the
    resolved location when new_imp, disturb_20000_sf, not
    table_2_2_activity and in_ms4 all hold, and False otherwise; the list
    is not required to be non-empty, so NNI is the empty list exactly
    when the four conditions hold and the location has no pollutant
    tag. *)
Theorem NNI_rule (self : StormwaterClassifier) (text : string) :
  let final := fst (classify_with_explanation gcm self text) in
  let I := snd (classify_with_explanation gcm self text) in
  let applies :=
    new_imp I && disturb_20000_sf I && negb (table_2_2_activity I) && in_ms4 I in
  NNI final = (if applies then NNI_list (pollutants_of_concern I) else NNI_False)
  /\ (NNI final = NNI_list [] <-> applies = true /\ pollutants_of_concern I = [])
  /\ pollutants_of_concern I
     = Loc.pollutants_of_concern (fst (_loc_features gcm self (parse_description text))).
Proof.
  cbv zeta. rewrite classify_with_explanation_eq. cbv zeta. cbn [fst snd].
  set (I := fst (_compute_intermediates _ _ _)).
  unfold _compute_final_labels. cbn [NNI].
  split; [reflexivity|]. split; [|reflexivity].
  destruct (new_imp I && disturb_20000_sf I && negb (table_2_2_activity I) && in_ms4 I).
  - split; [intros [= E]; split; [reflexivity|exact E]|intros [_ E]; f_equal; exact E].
  - split; [discriminate|intros [? _]; discriminate].
Qed.

(** What [_compute_intermediates] computes for the disturbed area:
    disturb_20000_sf holds exactly when [disturbed_used] is present and
    at least 20,000, and [disturbed_used] is the quantity the
    specification words ([disturbed_used_stated]) unless the parsed
    number is zero.  A parsed zero is false for Python's [or], so the
    code passes it over for the lot area; the sibling tests of the same
    function are written with [is None] and [is not None]. *)
Lemma disturb_20000_sf_rule (self : StormwaterClassifier) (text : string) :
  let parsed := parse_description text in
  let loc := fst (_loc_features gcm self parsed) in
  let I := snd (classify_with_explanation gcm self text) in
  (disturb_20000_sf I = true <->
   exists d, disturbed_used parsed loc = Some d /\ (20000 <= d)%Z)
  /\ (disturbed_area_sf parsed <> Some (Num 0) ->
      disturbed_used parsed loc = disturbed_used_stated parsed loc).
Proof.
  cbv zeta. rewrite classify_with_explanation_eq. cbv zeta. cbn [fst snd].
  unfold _compute_intermediates, disturbed_used, disturbed_used_stated, py_or.
  cbn [fst disturb_20000_sf].
  set (loc := fst (_loc_features gcm self (parse_description text))).
  destruct (disturbed_area_sf (parse_description text)) as [[sf|]|].
  - destruct (Z.eqb_spec sf 0) as [->|Hne]; split; try reflexivity; try congruence.
    + destruct (Loc.lot_area_sf loc) as [d|].
      * rewrite Z.leb_le. split; [eauto|intros (d' & [= <-] & H); exact H].
      * split; [discriminate|intros (d' & [=] & _)].
    + rewrite Z.leb_le. split; [eauto|intros (d' & [= <-] & H); exact H].
  - split; [|reflexivity].
    destruct (Loc.full_site_disturbed_sf loc) as [d|].
    + rewrite Z.leb_le. split; [eauto|intros (d' & [= <-] & H); exact H].
    + split; [discriminate|intros (d' & [=] & _)].
  - split; [|reflexivity].
    destruct (Loc.lot_area_sf loc) as [d|].
    + rewrite Z.leb_le. split; [eauto|intros (d' & [= <-] & H); exact H].
    + split; [discriminate|intros (d' & [=] & _)].
Qed.

(** [load_models] holds a key exactly when its file exists. *)
Lemma load_models_lookup fs models_dir :
  load_models fs models_dir !! "table_2_2_activity"
  = fs !! path_join models_dir "table_2_2_activity.joblib"
  /\ load_models fs models_dir !! "new_connection"
     = fs !! path_join models_dir "new_connection.joblib".
Proof.
  unfold load_models. cbn [fold_left].
  change (String.append "table_2_2_activity" ".joblib") with "table_2_2_activity.joblib".
  change (String.append "new_connection" ".joblib") with "new_connection.joblib".
  destruct (fs !! path_join models_dir "table_2_2_activity.joblib") as [m1|] eqn:E1;
    destruct (fs !! path_join models_dir "new_connection.joblib") as [m2|] eqn:E2;
    split;
    rewrite ?lookup_insert_eq, ?lookup_insert_ne, ?lookup_insert_eq, ?lookup_empty
      by discriminate;
    reflexivity.
Qed.

Lemma _predict_true self key text :
  _predict self key text = true <->
  exists model, models self !! key = Some model /\ (0.5 <= model text)%Q.
Proof.
  unfold _predict. destruct (models self !! key) as [model|].
  - rewrite Qle_bool_iff. split; [eauto|intros (m & [= <-] & H); exact H].
  - split; [discriminate|intros (m & [=] & _)].
Qed.

(** C7.  Each predictor decision is true exactly when the predictor is
    loaded and gives the text a probability of at least 0.5; a
    classifier built with nothing cached holds a predictor exactly when
    its file exists, so a missing file gives the decision false. *)
Theorem predictor_decisions (self : StormwaterClassifier) (text : string)
    (fs : files) (client : PlutoLookupClient) (models_dir : string) :
  let final := fst (classify_with_explanation gcm self text) in
  let I := snd (classify_with_explanation gcm self text) in
  (table_2_2_activity I = true <->
   exists model, models self !! "table_2_2_activity" = Some model
                 /\ (0.5 <= model text)%Q)
  /\ (Vv final = true <->
      exists model, models self !! "new_connection" = Some model
                    /\ (0.5 <= model text)%Q)
  /\ models (fst (__init__ None fs client models_dir)) !! "table_2_2_activity"
     = fs !! path_join models_dir "table_2_2_activity.joblib"
  /\ models (fst (__init__ None fs client models_dir)) !! "new_connection"
     = fs !! path_join models_dir "new_connection.joblib".
Proof.
  cbv zeta. rewrite classify_with_explanation_eq. cbv zeta. cbn [fst snd].
  unfold _compute_intermediates, _compute_final_labels.
  cbn [fst snd table_2_2_activity Vv].
  split; [exact (_predict_true self _ text)|].
  split; [exact (_predict_true self _ text)|].
  apply load_models_lookup.
Qed.

(** The class-level cache of predictors is written by the first
    construction only: a classifier built later on the same lookup
    client, whatever the files then are, holds the same predictors, and
    the cache is unchanged. *)
Lemma cached_models_reused
    (cache : option (gmap string predictor)) (fs fs' : files)
    (client : PlutoLookupClient) (models_dir models_dir' : string)
    (text : string) :
  let first := __init__ cache fs client models_dir in
  let second := __init__ (snd first) fs' client models_dir' in
  classify gcm (fst second) text = classify gcm (fst first) text
  /\ snd second = snd first.
Proof.
  cbv zeta. unfold __init__. destruct cache; cbn [fst snd]; split; reflexivity.
Qed.

(* ------------------------------------------------------------------- *)
(** *** The location resolver *)

(** With an address on every parcel, the table of addresses of a
    borough is the list of the addresses of its parcels. *)
Lemma address_list_present self bcode :
  addresses_present self ->
  address_list_by_boro self bcode
  = omap Address
      (List.filter (fun row => String.eqb (Borough row) bcode) (pluto self)).
Proof.
  intros Hpresent. unfold address_list_by_boro.
  assert (Hsub : forall row,
             In row (List.filter (fun row => String.eqb (Borough row) bcode)
                                 (pluto self)) ->
             Address row <> None)
    by (intros row Hin; apply filter_In in Hin; apply Hpresent, Hin).
  induction (List.filter (fun row => String.eqb (Borough row) bcode) (pluto self))
    as [|row rows IH]; [reflexivity|].
  pose proof (Hsub row (or_introl eq_refl)) as Hrow.
  simpl. destruct (Address row) as [a|] eqn:Ea; [|congruence].
  simpl. f_equal. apply IH. intros r Hr. apply Hsub. right. exact Hr.
Qed.

Lemma example_addresses_present : addresses_present example_client.
Proof.
  intros row Hin. simpl in Hin. destruct Hin as [<-|[<-|[]]]; discriminate.
Qed.

Lemma BORO_TO_CODE_unmapped (b : string) :
  ~ In b ["Manhattan"; "Bronx"; "Brooklyn"; "Queens"; "Staten Island"] ->
  BORO_TO_CODE !! b = None.
Proof.
  intros H. unfold BORO_TO_CODE. cbn [list_to_map foldr fst snd uncurry].
  rewrite !lookup_insert_ne; [apply lookup_empty| | | | |];
    intros <-; apply H; simpl; tauto.
Qed.

Lemma BORO_TO_CODE_mapped (b bcode : string) :
  BORO_TO_CODE !! b = Some bcode ->
  In (b, bcode) [("Manhattan", "MN"); ("Bronx", "BX"); ("Brooklyn", "BK");
                 ("Queens", "QN"); ("Staten Island", "SI")].
Proof.
  intros H. apply (elem_of_list_to_map_2 (M := gmap string)) in H.
  apply list_elem_of_In. exact H.
Qed.





(** The resolver, with its queries written out. *)
Lemma lookup_location_features_eq
    (self : PlutoLookupClient) (parsed : ParsedDescription) :
  let addr := default "" (street_address parsed) in
  let b := default "" (borough parsed) in
  lookup_location_features gcm self parsed
  = (if not_str (street_address parsed) || not_str (borough parsed)
     then (default_features, [])
     else
       match BORO_TO_CODE !! b with
       | None => (default_features, [])
       | Some bcode =>
           match _exact_address_match self addr bcode with
           | Some row =>
               (features_of self parsed row,
                [ExactQuery addr bcode;
                 ContainsQuery (centroid row); ContainsQuery (centroid row)])
           | None =>
               match _fuzzy_address_match gcm self addr bcode with
               | Some row =>
                   (features_of self parsed row,
                    [ExactQuery addr bcode; FuzzyQuery addr bcode 0.6%Q;
                     ContainsQuery (centroid row); ContainsQuery (centroid row)])
               | None =>
                   (default_features,
                    [ExactQuery addr bcode; FuzzyQuery addr bcode 0.6%Q])
               end
           end
       end).
Proof.
  cbv zeta. unfold lookup_location_features.
  destruct (not_str (street_address parsed) || not_str (borough parsed));
    [reflexivity|].
  destruct (BORO_TO_CODE !! default "" (borough parsed)) as [bcode|];
    [|reflexivity].
  destruct (_exact_address_match self _ bcode) as [row|]; [reflexivity|].
  destruct (_fuzzy_address_match gcm self _ bcode) as [row|]; reflexivity.
Qed.


(** C10.  When the borough the parser extracted is not one of the five
    canonical spellings, the borough-code table has no entry for it and
    the resolver returns the all-default features without a query, so
    the classification sees no location-derived feature. *)
Theorem unmapped_borough_default
    (self : StormwaterClassifier) (text : string) (b : string) :
  borough (parse_description text) = Some b ->
  ~ In b ["Manhattan"; "Bronx"; "Brooklyn"; "Queens"; "Staten Island"] ->
  BORO_TO_CODE !! b = None
  /\ lookup_location_features gcm (lookup self) (parse_description text)
     = (default_features, [])
  /\ _loc_features gcm self (parse_description text) = (default_features, [])
  /\ in_ms4 (snd (classify_with_explanation gcm self text)) = false
  /\ pollutants_of_concern (snd (classify_with_explanation gcm self text)) = [].
Proof.
  intros Hb Hn. pose proof (BORO_TO_CODE_unmapped b Hn) as Hcode.
  assert (Hl : lookup_location_features gcm (lookup self) (parse_description text)
               = (default_features, [])).
  { rewrite lookup_location_features_eq. rewrite Hb.
    change (default "" (Some b)) with b.
    rewrite Hcode. destruct (_ || _); reflexivity. }
  assert (Hf : _loc_features gcm self (parse_description text) = (default_features, [])).
  { unfold _loc_features. rewrite Hl. destruct (_ || _); reflexivity. }
  repeat split; try assumption;
    rewrite classify_with_explanation_eq; cbv zeta; cbn [fst snd];
    unfold _compute_intermediates; cbn [fst in_ms4 pollutants_of_concern];
    rewrite Hf; reflexivity.
Qed.

End Rules.

(** In the example store the exact step finds the Brooklyn parcel, which
    lies in a drainage area that flags no pollutant. *)
Example example_resolution :
  _loc_features no_close_matches example_classifier
    (parse_description
       "Project at 123 Main Street in the borough of Brooklyn will disturb 25,000 SF and add 6,000 SF of new impervious area")
  = ({| Loc.in_ms4_area := true; Loc.pollutants_of_concern := [];
        Loc.lot_area_sf := Some 30000%Z; Loc.full_site_disturbed_sf := None |},
     [ExactQuery "123 Main Street" "BK";
      ContainsQuery (-73.95, 40.65)%Q; ContainsQuery (-73.95, 40.65)%Q]).
Proof. vm_compute. reflexivity. Qed.

(** C1 as stated fails: all four conditions hold and NNI is the empty
    list. *)
Lemma NNI_counterexample :
  NNI (classify no_close_matches example_classifier
         "Project at 123 Main Street in the borough of Brooklyn will disturb 25,000 SF and add 6,000 SF of new impervious area")
  = NNI_list [].
Proof. vm_compute. reflexivity. Qed.

(** C4.  The claim fails on this input: the text says that 0 SF are
    disturbed and the parser gives the number 0, so the quantity the
    claim selects is 0 and disturb_20000_sf should be false; the code
    drops the 0, takes the 30,000 SF lot area of the parcel instead, and
    sets disturb_20000_sf. *)
Lemma disturb_20000_sf_parsed_zero :
  disturbed_area_sf
    (parse_description "Regrading at 123 Main Street in Brooklyn will disturb 0 SF")
  = Some (Num 0)
  /\ disturbed_used_stated
       (parse_description "Regrading at 123 Main Street in Brooklyn will disturb 0 SF")
       (fst (_loc_features no_close_matches example_classifier
               (parse_description
                  "Regrading at 123 Main Street in Brooklyn will disturb 0 SF")))
     = Some 0%Z
  /\ disturb_20000_sf
       (snd (classify_with_explanation no_close_matches example_classifier
               "Regrading at 123 Main Street in Brooklyn will disturb 0 SF"))
     = true.
Proof. vm_compute. auto. Qed.



(** The borough pattern takes lower-case spellings and the two
    abbreviations. *)
Example borough_variants :
  borough (parse_description "Resurfacing at 10 Bay St in brooklyn") = Some "brooklyn"
  /\ borough (parse_description "Resurfacing at 10 Bay St, SI") = Some "SI"
  /\ borough (parse_description "Resurfacing at 10 Bay St, S.I.NY") = Some "S.I."
  /\ borough (parse_description "Resurfacing at 10 Bay St, STATEN ISLAND")
     = Some "STATEN ISLAND".
Proof. vm_compute. auto. Qed.

(** The first example of the specification, with no predictor loaded. *)
Example example_1_labels :
  classify_with_explanation no_close_matches example_classifier
    "Project at 123 Main Street in the borough of Brooklyn will disturb 25,000 SF and add 6,000 SF of new impervious area"
  = ({| ESC := true; WQ := true; RR := true; NNI := NNI_list []; Vv := false |},
     {| disturb_20000_sf := true; new_imp_5000_sf := true; new_imp := true;
        table_2_2_activity := false; in_ms4 := true;
        pollutants_of_concern := [] |}).
Proof. vm_compute. reflexivity. Qed.

(** The second example: a nominal new impervious area, and a lot area
    below the threshold. *)
Example example_2_labels :
  classify_with_explanation no_close_matches example_classifier
    "Construction of a new building at 460 New Dorp Lane, Staten Island"
  = ({| ESC := false; WQ := true; RR := true; NNI := NNI_False; Vv := false |},
     {| disturb_20000_sf := false; new_imp_5000_sf := false; new_imp := true;
        table_2_2_activity := false; in_ms4 := false;
        pollutants_of_concern := [] |}).
Proof. vm_compute. reflexivity. Qed.

(** A dot in the street address stands for any character in the first
    step of the resolver: "5 A.B St" is no substring of "5 AXB STREET",
    and the step finds the parcel. *)
Example exact_step_dot :
  street_address (parse_description "Repaving at 5 A.B St in the Bronx")
  = Some "5 A.B St"
  /\ substring_ci (chars "5 A.B St") (chars "5 AXB STREET") = false
  /\ _exact_address_match
       {| pluto := [ {| Borough := "BX"; Address := Some "5 AXB STREET";
                        LotArea := None; centroid := (0, 0)%Q |} ];
          ms4 := [] |}
       "5 A.B St" "BX"
     = Some {| Borough := "BX"; Address := Some "5 AXB STREET";
               LotArea := None; centroid := (0, 0)%Q |}.
Proof. vm_compute. auto. Qed.

Lemma unmapped_borough_default_witness :
  borough (parse_description "Construction of a new building at 460 New Dorp Lane, SI")
  = Some "SI"
  /\ BORO_TO_CODE !! "SI" = None
  /\ _loc_features no_close_matches example_classifier
       (parse_description "Construction of a new building at 460 New Dorp Lane, SI")
     = (default_features, []).
Proof.
  split; [vm_compute; reflexivity|].
  assert (Hn : ~ In "SI" ["Manhattan"; "Bronx"; "Brooklyn"; "Queens"; "Staten Island"])
    by (simpl; intros H; decompose [or] H; first [discriminate | contradiction]).
  pose proof (unmapped_borough_default no_close_matches example_classifier
                "Construction of a new building at 460 New Dorp Lane, SI" "SI"
                eq_refl Hn) as H.
  tauto.
Defined.

(* ===================================================================== *)
(** ** The boolean coercion of the evaluation script *)
(* ===================================================================== *)

Lemma in_tuple_In val t : in_tuple val t = true <-> In val t.
Proof.
  unfold in_tuple. rewrite existsb_exists. split.
  - intros (x & Hx & E). apply String.eqb_eq in E. subst. exact Hx.
  - intros H. exists val. split; [exact H|apply String.eqb_refl].
Qed.

Lemma recognized_disjoint val :
  In val recognized_false -> in_tuple val recognized_true = false.
Proof.
  unfold recognized_false. simpl.
  intros H. decompose [or] H; subst; first [reflexivity | contradiction].
Qed.

(** What [to_bool] computes.  [True] gives 1 and [False] gives 0; an
    int is returned as it is and a finite float truncated toward zero;
    for every other value, with its string form trimmed and lower-cased,
    the result is 1 for true/1/yes/y, 0 for false/0/no/n/empty/none, and
    otherwise a ValueError whose message ends with that string. *)
Lemma to_bool_cases :
  (forall b : bool, to_bool (VBool b) = Return (if b then 1 else 0)%Z)
  /\ (forall z, to_bool (VInt z) = Return z)
  /\ (forall q, to_bool (VFloat (Fin q)) = Return (Qnum q ÷ Zpos (Qden q))%Z)
  /\ (forall val,
        is_number val = false ->
        (In (normalized val) recognized_true -> to_bool val = Return 1%Z)
        /\ (In (normalized val) recognized_false -> to_bool val = Return 0%Z)
        /\ (~ In (normalized val) (recognized_true ++ recognized_false) ->
            to_bool val
            = Raise (ValueError
                       (String.append "Cannot interpret boolean value: "
                                      (normalized val))))).
Proof.
  split; [intros []; reflexivity|]. split; [reflexivity|]. split; [reflexivity|].
  intros val Hn.
  assert (E : to_bool val
              = if in_tuple (normalized val) recognized_true then Return 1%Z
                else if in_tuple (normalized val) recognized_false then Return 0%Z
                else Raise (ValueError
                              (String.append "Cannot interpret boolean value: "
                                             (normalized val))))
    by (destruct val; try discriminate Hn; reflexivity).
  rewrite E. clear E. split; [|split].
  - intros H. apply in_tuple_In in H. rewrite H. reflexivity.
  - intros H. rewrite (recognized_disjoint _ H).
    apply in_tuple_In in H. rewrite H. reflexivity.
  - intros H.
    destruct (in_tuple (normalized val) recognized_true) eqn:E1.
    { exfalso. apply H, in_or_app. left. apply in_tuple_In, E1. }
    destruct (in_tuple (normalized val) recognized_false) eqn:E2.
    { exfalso. apply H, in_or_app. right. apply in_tuple_In, E2. }
    reflexivity.
Qed.

(** C8.  The claim fails on this input: the number 2 is a recognized
    input and [to_bool] returns 2, which is neither 1 nor 0, where the
    function is commented as converting to 0 or 1 and rejects the same
    value written as a string. *)
Lemma to_bool_int_two :
  to_bool (VInt 2) = Return 2%Z
  /\ 2%Z <> 1%Z /\ 2%Z <> 0%Z
  /\ to_bool (VStr "2") = Raise (ValueError "Cannot interpret boolean value: 2").
Proof. repeat split; first [discriminate | reflexivity]. Qed.

(** A float that is not finite does not convert: the error is that of
    [int], which does not mention a boolean. *)
Example to_bool_not_finite :
  to_bool (VFloat NaN) = Raise (ValueError "cannot convert float NaN to integer")
  /\ forall negative,
       to_bool (VFloat (Inf negative))
       = Raise (OverflowError "cannot convert float infinity to integer").
Proof. split; reflexivity. Qed.

Example to_bool_examples :
  to_bool (VStr "  YES ") = Return 1%Z
  /\ to_bool (VStr "None") = Return 0%Z
  /\ to_bool VNone = Return 0%Z
  /\ to_bool (VFloat (Fin 0.9)) = Return 0%Z
  /\ to_bool (VStr " Maybe ")
     = Raise (ValueError "Cannot interpret boolean value: maybe").
Proof. vm_compute. repeat split. Qed.

(* ===================================================================== *)
(** ** Further properties of the parser *)
(* ===================================================================== *)

Lemma classes_within_any r : classes_within (fun _ => true) r.
Proof. induction r; simpl; auto. Qed.

(** A match consumes a prefix of what is left of the subject. *)
Lemma ends_split r k e :
  In e (ends r k) -> exists w, snd k = w ++ snd (fst e).
Proof.
  intros H.
  destruct (ends_within (fun _ => true) r k e (classes_within_any r) H)
    as [(w & E & _) _].
  eauto.
Qed.

Lemma ends_min_len r k e :
  In e (ends r k) -> min_len r + length (snd (fst e)) <= length (snd k).
Proof.
  revert k e. induction r as [|p|r1 IH1 r2 IH2|r1 IH1 r2 IH2|g p|r1 IH1|];
    intros [prev s] e H; simpl in H |- *.
  - destruct H as [<-|[]]. simpl. lia.
  - destruct s as [|c s']; [contradiction|].
    destruct (p c); [|contradiction]. destruct H as [<-|[]]. simpl. lia.
  - apply in_flat_map in H. destruct H as (e1 & H1 & H).
    apply in_map_iff in H. destruct H as (e2 & <- & H2).
    apply IH1 in H1. apply IH2 in H2. simpl in *. lia.
  - apply in_app_or in H. destruct H as [H|H]; [apply IH1 in H|apply IH2 in H];
      simpl in *; lia.
  - apply in_map_iff in H. destruct H as (k' & <- & H).
    apply rep_within in H. destruct H as (w & -> & _). simpl.
    rewrite length_app. lia.
  - apply in_map_iff in H. destruct H as (e1 & <- & H). apply IH1 in H. exact H.
  - destruct (xorb _ _); [|contradiction]. destruct H as [<-|[]]. simpl. lia.
Qed.

(** The text of group 1 is a part of what was left of the subject, of
    at least the length the group requires. *)
Lemma ends_group r k e g :
  In e (ends r k) -> snd e = Some g ->
  part_of g (snd k) /\ forall n, group_at_least n r = true -> n <= length g.
Proof.
  revert k e g. induction r as [|p|r1 IH1 r2 IH2|r1 IH1 r2 IH2|gr p|r1 IH1|];
    intros [prev s] e g H Hg; simpl in H.
  - destruct H as [<-|[]]. discriminate.
  - destruct s as [|c s']; [contradiction|].
    destruct (p c); [|contradiction]. destruct H as [<-|[]]. discriminate.
  - apply in_flat_map in H. destruct H as (e1 & H1 & H).
    apply in_map_iff in H. destruct H as (e2 & <- & H2). simpl in Hg.
    unfold later in Hg. destruct (snd e2) as [g2|] eqn:E2.
    + injection Hg as ->. destruct (IH2 _ _ _ H2 E2) as [(a & b & Ea) Hn].
      destruct (ends_split _ _ _ H1) as (w & Ew). simpl in *. split.
      * exists (w ++ a), b. rewrite Ew, Ea, <- app_assoc. reflexivity.
      * intros n Hge. apply andb_true_iff in Hge. apply Hn, Hge.
    + destruct (IH1 _ _ _ H1 Hg) as [Hp Hn]. split; [exact Hp|].
      intros n Hge. apply andb_true_iff in Hge. apply Hn, Hge.
  - apply in_app_or in H.
    destruct H as [H|H];
      [destruct (IH1 _ _ _ H Hg) as [Hp Hn]|destruct (IH2 _ _ _ H Hg) as [Hp Hn]];
      (split; [exact Hp|]); intros n Hge; apply andb_true_iff in Hge; apply Hn, Hge.
  - apply in_map_iff in H. destruct H as (k' & <- & _). discriminate.
  - apply in_map_iff in H. destruct H as (e1 & <- & H). cbn [fst snd] in Hg.
    injection Hg as <-.
    destruct (ends_split _ _ _ H) as (w & Ew). cbn [fst snd] in Ew.
    pose proof (ends_min_len _ _ _ H) as Hl. cbn [fst snd min_len] in Hl.
    rewrite Ew in Hl |- *. rewrite consumed_app. split.
    + exists [], (snd (fst e1)). reflexivity.
    + intros n Hge. apply Nat.leb_le in Hge.
      rewrite length_app in Hl. lia.
  - destruct (xorb _ _); [|contradiction]. destruct H as [<-|[]]. discriminate.
Qed.

Lemma positions_suffix prev s k :
  In k (positions prev s) -> exists pre, s = pre ++ snd k.
Proof.
  revert prev. induction s as [|c s IH]; intros prev; simpl.
  - intros [<-|[]]. exists []. reflexivity.
  - intros [<-|H]; [exists []; reflexivity|].
    destruct (IH _ H) as (pre & E). exists (c :: pre). simpl. congruence.
Qed.

Lemma part_of_suffix w pre s : part_of w s -> part_of w (pre ++ s).
Proof.
  intros (a & b & ->). exists (pre ++ a), b. rewrite <- app_assoc. reflexivity.
Qed.

(** The text of group 1 of a match found by [search]. *)
Lemma search_group_text r text m n :
  through_group r = true -> group_at_least n r = true ->
  re_search r text = Some m ->
  part_of (group_1 m) (chars text) /\ n <= length (group_1 m).
Proof.
  intros Ht Hn H. apply search_at_inv in H.
  destruct H as (k & e & Hk & He & _ & Hg).
  pose proof (group_participates _ _ _ Ht He) as Hs.
  unfold group_1. rewrite Hg. destruct (snd e) as [g|] eqn:Eg; [|congruence].
  destruct (ends_group _ _ _ _ He Eg) as [Hp Hl].
  destruct (positions_suffix _ _ _ Hk) as (pre & ->).
  split; [apply part_of_suffix, Hp|apply Hl, Hn].
Qed.

Lemma str_not_empty l : 1 <= length l -> str l <> "".
Proof. destruct l; simpl; [lia|discriminate]. Qed.

(** X1.  The parser takes the street address and the borough out of the
    text: each, when present, is a contiguous part of the text and is
    not empty, and the street address is made of letters, digits, dots,
    hyphens, apostrophes and white space. *)
Theorem parsed_fields_from_text (text : string) :
  (forall addr,
     street_address (parse_description text) = Some addr ->
     addr <> "" /\ part_of (chars addr) (chars text)
     /\ forallb street_char (chars addr) = true)
  /\ (forall b,
        borough (parse_description text) = Some b ->
        b <> "" /\ part_of (chars b) (chars text)).
Proof.
  split.
  - intros addr H. split; [|split; [|apply (street_address_chars text), H]];
      revert H; unfold parse_description; cbn [street_address];
      destruct (re_search ADDRESS_PATTERN text) as [m|] eqn:E; try discriminate;
      intros [= <-];
      destruct (search_group_text ADDRESS_PATTERN text m 1 eq_refl eq_refl E)
        as [Hp Hl].
    + apply str_not_empty, Hl.
    + rewrite chars_str. exact Hp.
  - intros b H. revert H. unfold parse_description. cbn [borough].
    destruct (re_search BOROUGH_PATTERN text) as [m|] eqn:E; try discriminate.
    intros [= <-].
    destruct (search_group_text BOROUGH_PATTERN text m 1 eq_refl eq_refl E)
      as [Hp Hl].
    split; [apply str_not_empty, Hl|rewrite chars_str; exact Hp].
Qed.

Lemma existsb_filter {A} (f : A -> bool) l :
  existsb f l = true -> List.filter f l <> [].
Proof.
  induction l as [|a l IH]; simpl; [discriminate|].
  destruct (f a); [discriminate|exact IH].
Qed.

(** X2.  When the text has exactly one quantity token and the token has
    a digit, the disturbed area is a number, whatever full-site phrase
    the text also has; with no explicit disturbance phrase, and at most
    15 digits in the token, it is the number the digits of that token
    spell. *)
Theorem single_quantity_is_disturbance (text : string) (tok : list ascii) :
  re_findall NUMBER_SF_PATTERN text = [tok] ->
  existsb is_digit tok = true ->
  (exists n, disturbed_area_sf (parse_description text) = Some (Num n))
  /\ (first_match DISTURB_PHRASES text = None ->
      (length (List.filter is_digit tok) <= 15)%nat ->
      disturbed_area_sf (parse_description text)
      = Some (Num (decimal (List.filter is_digit tok)))).
Proof.
  intros Hall Hdig.
  assert (Htok : _extract_sf_number tok = Some (decimal (List.filter is_digit tok))).
  { unfold _extract_sf_number. pose proof (existsb_filter _ _ Hdig) as Hne.
    destruct (List.filter is_digit tok); [congruence|reflexivity]. }
  rewrite disturbed_area_sf_cases. cbv zeta. rewrite Hall, Htok. split.
  - destruct (match first_match DISTURB_PHRASES text with
              | Some m => _extract_sf_number (group_1 m)
              | None => None
              end); eauto.
  - intros -> _. reflexivity.
Qed.

Lemma single_quantity_is_disturbance_witness :
  re_findall NUMBER_SF_PATTERN "Repaving of the full site, 500 SF in all" = [chars "500"]
  /\ any_match FULL_SITE_PHRASES "Repaving of the full site, 500 SF in all" = true
  /\ disturbed_area_sf (parse_description "Repaving of the full site, 500 SF in all")
     = Some (Num 500).
Proof.
  split; [vm_compute; reflexivity|]. split; [vm_compute; reflexivity|].
  refine (proj2 (single_quantity_is_disturbance
                   "Repaving of the full site, 500 SF in all" (chars "500")
                   eq_refl eq_refl) eq_refl _).
  simpl. lia.
Defined.

(** X3.  The new impervious area of a parsed description is always a
    number, never absent and never negative; when no impervious phrase
    matches it is 0 or the nominal 1. *)
Theorem new_impervious_sf_number (text : string) :
  exists sf,
    new_impervious_sf (parse_description text) = Some sf
    /\ (0 <= sf)%Z
    /\ (first_match IMPERVIOUS_PHRASES text = None -> sf = 0%Z \/ sf = 1%Z).
Proof.
  rewrite new_impervious_sf_cases.
  destruct (first_match IMPERVIOUS_PHRASES text) as [m|].
  - destruct (_extract_sf_number (group_1 m)) as [sf|] eqn:E.
    + exists sf. split; [reflexivity|]. split; [|discriminate].
      eapply _extract_sf_number_nonneg, E.
    + destruct (any_match NEW_BUILDING_PATTERNS text); eexists;
        (split; [reflexivity|]); (split; [lia|discriminate]).
  - destruct (any_match NEW_BUILDING_PATTERNS text); eexists;
      (split; [reflexivity|]); (split; [lia|auto]).
Qed.

Lemma filter_none_forallb {A} (f : A -> bool) l :
  List.filter f l = [] <-> forallb (fun a => negb (f a)) l = true.
Proof.
  induction l as [|a l IH]; simpl; [tauto|].
  destruct (f a); simpl; [split; discriminate|exact IH].
Qed.

Lemma decimal_app ds c : decimal (ds ++ [c]) = (10 * decimal ds + digit_value c)%Z.
Proof. unfold decimal. rewrite fold_left_app. reflexivity. Qed.

(** X4.  [_extract_sf_number] reads the digits of its argument as a
    decimal number and nothing else: the result is absent exactly when
    there is no digit, a character that is not a digit can be dropped
    anywhere, and, up to 15 digits in all, a digit added at the end
    multiplies the value by ten and adds the digit. *)
Theorem extract_sf_number_reading :
  (forall s, _extract_sf_number s = None
             <-> forallb (fun c => negb (is_digit c)) s = true)
  /\ (forall s1 c s2,
        is_digit c = false ->
        _extract_sf_number (s1 ++ c :: s2) = _extract_sf_number (s1 ++ s2))
  /\ (forall s c,
        is_digit c = true ->
        (length (List.filter is_digit s) < 15)%nat ->
        _extract_sf_number (s ++ [c])
        = Some (10 * default 0%Z (_extract_sf_number s) + digit_value c)%Z).
Proof.
  split; [|split].
  - intros s. unfold _extract_sf_number. rewrite <- filter_none_forallb.
    destruct (List.filter is_digit s); split; congruence.
  - intros s1 c s2 Hc. unfold _extract_sf_number.
    rewrite !List.filter_app. simpl. rewrite Hc. reflexivity.
  - intros s c Hc _. unfold _extract_sf_number.
    rewrite List.filter_app. simpl. rewrite Hc.
    destruct (List.filter is_digit s) as [|d ds]; [reflexivity|].
    simpl app. cbn [default from_option id]. f_equal.
    apply (decimal_app (d :: ds) c).
Qed.

(* ===================================================================== *)
(** ** Further properties of the location resolver *)
(* ===================================================================== *)

Lemma head_filter_Some {A} (f : A -> bool) (l : list A) (x : A) :
  head (List.filter f l) = Some x ->
  exists before after,
    l = before ++ x :: after /\ f x = true
    /\ forallb (fun a => negb (f a)) before = true.
Proof.
  induction l as [|a l IH]; simpl; [discriminate|].
  destruct (f a) eqn:E.
  - intros [= <-]. exists [], l. auto.
  - intros H. destruct (IH H) as (before & after & -> & Hx & Hb).
    exists (a :: before), after. simpl. rewrite E. auto.
Qed.

Lemma head_filter_None {A} (f : A -> bool) (l : list A) :
  head (List.filter f l) = None <-> forallb (fun a => negb (f a)) l = true.
Proof.
  rewrite <- filter_none_forallb. destruct (List.filter f l); simpl; split; congruence.
Qed.

Lemma existsb_false_filter {A} (f : A -> bool) l :
  existsb f l = false -> List.filter f l = [].
Proof.
  induction l as [|a l IH]; simpl; [reflexivity|].
  destruct (f a); simpl; [discriminate|exact IH].
Qed.

Lemma _get_ms4_attributes_sublist self pt :
  sublist (_get_ms4_attributes self pt) vocabulary.
Proof.
  unfold _get_ms4_attributes, vocabulary.
  destruct (List.filter _ (ms4 self)) as [|row rows]; [apply sublist_nil_l|].
  destruct (is_yes (FLOATABLES row)), (is_yes (PATHOGENS row)),
    (is_yes (NITROGEN row)), (is_yes (PHOSPHORUS row)); simpl;
    repeat constructor.
Qed.

Lemma matches_contains_pattern w k :
  matches_at
    (cat (map (fun a => if (code a =? 46)%N then Chr dot else Chr (eqb_ci a)) w)) k
  <-> prefix_pat w (snd k) = true.
Proof.
  revert k. induction w as [|a w IH]; intros [prev s].
  - unfold matches_at. simpl. split; [reflexivity|discriminate].
  - unfold cat. cbn [map fold_right].
    fold (cat (map (fun a => if (code a =? 46)%N then Chr dot else Chr (eqb_ci a)) w)).
    rewrite matches_seq. cbn [prefix_pat snd]. destruct s as [|c s'].
    + split; [|discriminate]. intros (e1 & H & _).
      destruct (code a =? 46)%N; destruct H.
    + assert (E : forall p : ascii -> bool,
                 (exists e1, In e1 (ends (Chr p) (prev, c :: s'))
                             /\ matches_at
                                  (cat (map (fun a => if (code a =? 46)%N then Chr dot
                                                      else Chr (eqb_ci a)) w))
                                  (fst e1))
                 <-> p c && prefix_pat w s' = true).
      { intros p. simpl. destruct (p c); simpl.
        - rewrite <- (IH (Some c, s')). split.
          + intros (e1 & [<-|[]] & H). exact H.
          + intros H. eexists. split; [left; reflexivity|exact H].
        - split; [intros (e1 & [] & _)|discriminate]. }
      destruct (code a =? 46)%N; apply E.
Qed.

Lemma substring_pat_positions w prev s :
  substring_pat w s = true <->
  exists k, In k (positions prev s) /\ prefix_pat w (snd k) = true.
Proof.
  revert prev. induction s as [|c s IH]; intros prev; simpl.
  - rewrite orb_false_r. split.
    + intros H. exists (prev, []). auto.
    + intros (k & [<-|[]] & H). exact H.
  - rewrite orb_true_iff, (IH (Some c)). split.
    + intros [H|(k & Hk & H)]; [exists (prev, c :: s)|exists k]; auto.
    + intros (k & [<-|Hk] & H); [left; exact H|right; eauto].
Qed.

(** [str.contains], on the characters. *)
Lemma str_contains_substring_pat pat s :
  str_contains pat s = substring_pat (chars pat) (chars s).
Proof.
  unfold str_contains, re_search, contains_pattern.
  destruct (search_at _ None (chars s)) as [m|] eqn:E.
  - symmetry. apply (substring_pat_positions _ None).
    apply search_at_Some in E. destruct E as (k & Hk & Hm).
    exists k. split; [exact Hk|]. apply matches_contains_pattern, Hm.
  - destruct (substring_pat (chars pat) (chars s)) eqn:Es; [|reflexivity].
    apply (substring_pat_positions _ None) in Es. destruct Es as (k & Hk & Hp).
    apply search_at_None in E. exfalso. apply E.
    exists k. split; [exact Hk|]. apply matches_contains_pattern, Hp.
Qed.

Lemma dot_lower c : dot (lower c) = dot c.
Proof. destruct c as [[] [] [] [] [] [] [] []]; vm_compute; reflexivity. Qed.

Lemma is_dot_lower a : (code (lower a) =? 46)%N = (code a =? 46)%N.
Proof. destruct a as [[] [] [] [] [] [] [] []]; vm_compute; reflexivity. Qed.

Lemma prefix_pat_lower p p' s s' :
  map lower p = map lower p' -> map lower s = map lower s' ->
  prefix_pat p s = prefix_pat p' s'.
Proof.
  revert p' s s'. induction p as [|a p IH]; intros [|a' p'] s s' Hp Hs;
    try discriminate; [reflexivity|].
  injection Hp as Ha Hp.
  destruct s as [|c s], s' as [|c' s']; try discriminate; [reflexivity|].
  injection Hs as Hc Hs. simpl. rewrite (IH p' s s' Hp Hs).
  rewrite <- (is_dot_lower a), <- (is_dot_lower a'), Ha.
  rewrite <- (dot_lower c), <- (dot_lower c'), Hc.
  unfold eqb_ci. rewrite Ha, Hc. reflexivity.
Qed.

Lemma substring_pat_lower p p' s s' :
  map lower p = map lower p' -> map lower s = map lower s' ->
  substring_pat p s = substring_pat p' s'.
Proof.
  intros Hp. revert s'. induction s as [|c s IH]; intros [|c' s'] Hs;
    try discriminate; simpl.
  - rewrite (prefix_pat_lower p p' [] [] Hp eq_refl). reflexivity.
  - rewrite (prefix_pat_lower p p' (c :: s) (c' :: s') Hp Hs).
    injection Hs as _ Hs. rewrite (IH s' Hs). reflexivity.
Qed.

Lemma lower_str_chars s s' :
  lower_str s = lower_str s' -> map lower (chars s) = map lower (chars s').
Proof.
  unfold lower_str. intros H. apply (f_equal chars) in H.
  rewrite !chars_str in H. exact H.
Qed.

Lemma str_contains_lower pat pat' s s' :
  lower_str pat = lower_str pat' -> lower_str s = lower_str s' ->
  str_contains pat s = str_contains pat' s'.
Proof.
  intros Hp Hs. rewrite !str_contains_substring_pat.
  apply substring_pat_lower; apply lower_str_chars; assumption.
Qed.

(** X8.  The first step of the resolver ignores case on both sides: two
    street addresses, made of the characters of the address pattern,
    that differ in case only find the same parcel, and whether a stored
    address contains the street address does not depend on the case of
    either. *)
Theorem exact_match_ignores_case
    (self : PlutoLookupClient) (addr addr' bcode : string) :
  street_string addr = true -> street_string addr' = true ->
  lower_str addr = lower_str addr' ->
  _exact_address_match self addr bcode = _exact_address_match self addr' bcode
  /\ forall s s', lower_str s = lower_str s' ->
                  str_contains addr s = str_contains addr' s'.
Proof.
  intros _ _ H. split.
  - unfold _exact_address_match. f_equal. apply filter_ext. intros row. f_equal.
    apply str_contains_lower; [exact H|reflexivity].
  - intros s s' Hs. apply str_contains_lower; assumption.
Qed.

Lemma exact_match_ignores_case_witness :
  _exact_address_match example_client "123 main street" "BK"
  = _exact_address_match example_client "123 MAIN Street" "BK"
  /\ _exact_address_match example_client "123 main street" "BK"
     = Some {| Borough := "BK"; Address := Some "123 MAIN STREET";
               LotArea := Some 30000%Z; centroid := (-73.95, 40.65)%Q |}.
Proof.
  split; [|vm_compute; reflexivity].
  exact (proj1 (exact_match_ignores_case example_client
                  "123 main street" "123 MAIN Street" "BK"
                  eq_refl eq_refl eq_refl)).
Defined.

Lemma not_both (b c : bool) (P : Prop) :
  (b = true <-> P) -> negb (b && c) = true <-> ~ P \/ c = false.
Proof.
  intros HP. rewrite negb_true_iff, andb_false_iff. split.
  - intros [H|H]; [left; intros HP'; apply HP in HP'; congruence|right; exact H].
  - intros [H|H]; [left; destruct b; [exfalso; apply H, HP; reflexivity|reflexivity]
                  |right; exact H].
Qed.

Lemma _exact_address_match_Some self street_addr bcode row :
  _exact_address_match self street_addr bcode = Some row ->
  exists before after,
    pluto self = before ++ row :: after
    /\ Borough row = bcode
    /\ str_contains street_addr (astype_str (Address row)) = true
    /\ forall r, In r before ->
                 Borough r <> bcode
                 \/ str_contains street_addr (astype_str (Address r)) = false.
Proof.
  intros H. unfold _exact_address_match, first_row in H.
  apply head_filter_Some in H. destruct H as (before & after & E & Hx & Hb).
  apply andb_true_iff in Hx. destruct Hx as [Hx1 Hx2].
  exists before, after. split; [exact E|]. split; [apply String.eqb_eq, Hx1|].
  split; [exact Hx2|]. intros r Hr.
  rewrite forallb_forall in Hb. specialize (Hb r Hr).
  apply (not_both _ _ _ (String.eqb_eq _ _)) in Hb. exact Hb.
Qed.

Lemma _exact_address_match_None self street_addr bcode :
  _exact_address_match self street_addr bcode = None <->
  forall r, In r (pluto self) ->
            Borough r <> bcode
            \/ str_contains street_addr (astype_str (Address r)) = false.
Proof.
  unfold _exact_address_match, first_row. rewrite head_filter_None, forallb_forall.
  split; intros H r Hr; specialize (H r Hr);
    apply (not_both _ _ _ (String.eqb_eq _ _)); exact H.
Qed.

Lemma _fuzzy_address_match_Some
    (gcm : string -> list string -> nat -> Q -> list string)
    self street_addr bcode row :
  _fuzzy_address_match gcm self street_addr bcode = Some row ->
  In row (pluto self) /\ Borough row = bcode
  /\ exists match_addr rest,
       gcm street_addr (address_list_by_boro self bcode) 1 0.6%Q = match_addr :: rest
       /\ Address row = Some match_addr.
Proof.
  intros H. unfold _fuzzy_address_match in H.
  destruct (gcm street_addr _ 1 0.6%Q) as [|match_addr rest] eqn:E; [discriminate|].
  unfold first_row in H. apply head_filter_Some in H.
  destruct H as (before & after & Ep & Hx & _).
  apply andb_true_iff in Hx. destruct Hx as [Hx1 Hx2].
  split; [rewrite Ep; apply in_or_app; right; left; reflexivity|].
  split; [apply String.eqb_eq, Hx1|].
  unfold same_address in Hx2. destruct (Address row) as [a|]; [|discriminate].
  apply String.eqb_eq in Hx2. subst. eauto.
Qed.

(** X7.  For a street address made of the characters of the address
    pattern and a store in which every parcel has an address: a parcel
    found by the exact step is the first parcel of the store, in its
    order, that has the borough code and whose address contains the
    street address; the step finds none exactly when no parcel has
    both.  A parcel found by the fuzzy step is a parcel of the store
    with the borough code and the very address [get_close_matches]
    returned first among the addresses of the borough. *)
Theorem address_match_sound
    (gcm : string -> list string -> nat -> Q -> list string)
    (self : PlutoLookupClient) (street_addr bcode : string) :
  street_string street_addr = true ->
  addresses_present self ->
  (forall row,
     _exact_address_match self street_addr bcode = Some row ->
     exists before after a,
       pluto self = before ++ row :: after
       /\ Borough row = bcode
       /\ Address row = Some a
       /\ str_contains street_addr a = true
       /\ forall r, In r before ->
                    Borough r <> bcode
                    \/ exists a', Address r = Some a'
                                  /\ str_contains street_addr a' = false)
  /\ (_exact_address_match self street_addr bcode = None <->
      forall r, In r (pluto self) ->
                Borough r <> bcode
                \/ exists a', Address r = Some a'
                              /\ str_contains street_addr a' = false)
  /\ (forall row,
        _fuzzy_address_match gcm self street_addr bcode = Some row ->
        In row (pluto self) /\ Borough row = bcode
        /\ exists match_addr rest,
             gcm street_addr
                 (omap Address
                    (List.filter (fun row => String.eqb (Borough row) bcode)
                                 (pluto self)))
                 1 0.6%Q
             = match_addr :: rest
             /\ Address row = Some match_addr).
Proof.
  intros _ Hpresent.
  assert (Hstr : forall r, In r (pluto self) ->
                           exists a, Address r = Some a /\ astype_str (Address r) = a).
  { intros r Hr. specialize (Hpresent r Hr).
    destruct (Address r) as [a|]; [eauto|congruence]. }
  split; [|split].
  - intros row H. apply _exact_address_match_Some in H.
    destruct H as (before & after & E & Hb & Hc & Hr).
    assert (Hrow : In row (pluto self))
      by (rewrite E; apply in_or_app; right; left; reflexivity).
    assert (Hin : forall r, In r before -> In r (pluto self))
      by (intros r Hi; rewrite E; apply in_or_app; left; exact Hi).
    destruct (Hstr row Hrow) as (a & Ea & Es).
    exists before, after, a. rewrite Es in Hc. repeat split; try assumption.
    intros r Hi. destruct (Hr r Hi) as [Hn|Hn]; [left; exact Hn|right].
    destruct (Hstr r (Hin r Hi)) as (a' & Ea' & Es').
    exists a'. rewrite Es' in Hn. split; assumption.
  - rewrite _exact_address_match_None. split; intros H r Hi.
    + destruct (H r Hi) as [Hn|Hn]; [left; exact Hn|right].
      destruct (Hstr r Hi) as (a' & Ea' & Es').
      exists a'. rewrite Es' in Hn. split; assumption.
    + destruct (H r Hi) as [Hn|(a' & Ea' & Hn)]; [left; exact Hn|right].
      rewrite Ea'. exact Hn.
  - intros row H. apply _fuzzy_address_match_Some in H.
    rewrite (address_list_present _ _ Hpresent) in H. exact H.
Qed.

Lemma address_match_sound_witness :
  street_string "123 Main Street" = true
  /\ addresses_present example_client
  /\ exists before after a,
       pluto example_client
       = before
         ++ {| Borough := "BK"; Address := Some "123 MAIN STREET";
               LotArea := Some 30000%Z; centroid := (-73.95, 40.65)%Q |} :: after
       /\ Address {| Borough := "BK"; Address := Some "123 MAIN STREET";
                     LotArea := Some 30000%Z; centroid := (-73.95, 40.65)%Q |}
          = Some a
       /\ str_contains "123 Main Street" a = true.
Proof.
  split; [reflexivity|]. split; [exact example_addresses_present|].
  destruct (proj1 (address_match_sound no_close_matches example_client
                     "123 Main Street" "BK" eq_refl example_addresses_present)
              _ eq_refl)
    as (before & after & a & E & _ & Ea & Hc & _).
  exists before, after, a. auto.
Defined.

Section Resolver.

Variable gcm : string -> list string -> nat -> Q -> list string.

(** The resolver returns the defaults or the features of a parcel of the
    store. *)
Lemma lookup_features_cases (self : PlutoLookupClient) (parsed : ParsedDescription) :
  fst (lookup_location_features gcm self parsed) = default_features
  \/ exists row, In row (pluto self)
                 /\ fst (lookup_location_features gcm self parsed)
                    = features_of self parsed row.
Proof.
  rewrite lookup_location_features_eq. cbv zeta.
  destruct (_ || _); [left; reflexivity|].
  destruct (BORO_TO_CODE !! _) as [bcode|]; [|left; reflexivity].
  destruct (_exact_address_match self _ bcode) as [row|] eqn:E.
  - right. exists row. split; [|reflexivity].
    apply _exact_address_match_Some in E.
    destruct E as (before & after & -> & _). apply in_or_app. right. left. reflexivity.
  - destruct (_fuzzy_address_match gcm self _ bcode) as [row|] eqn:F;
      [|left; reflexivity].
    right. exists row. split; [|reflexivity].
    apply _fuzzy_address_match_Some in F. tauto.
Qed.

Lemma lookup_features_invariant (self : PlutoLookupClient) (parsed : ParsedDescription) :
  let loc := fst (lookup_location_features gcm self parsed) in
  (Loc.in_ms4_area loc = false -> Loc.pollutants_of_concern loc = [])
  /\ Loc.full_site_disturbed_sf loc
     = (if is_full_site (disturbed_area_sf parsed) then Loc.lot_area_sf loc else None).
Proof.
  cbv zeta. destruct (lookup_features_cases self parsed) as [->|(row & _ & ->)].
  - simpl. destruct (is_full_site _); auto.
  - unfold features_of. cbn [Loc.in_ms4_area Loc.pollutants_of_concern
                              Loc.full_site_disturbed_sf Loc.lot_area_sf].
    split; [|reflexivity].
    intros H. unfold _get_ms4_attributes. rewrite (existsb_false_filter _ _ H).
    reflexivity.
Qed.

Lemma _loc_features_lookup (self : StormwaterClassifier) (parsed : ParsedDescription) :
  _loc_features gcm self parsed = lookup_location_features gcm (lookup self) parsed.
Proof.
  unfold _loc_features, lookup_location_features.
  destruct (_ || _); reflexivity.
Qed.

(** X5.  The pollutant tags of a location are taken from floatables,
    pathogens, nitrogen, phosphorus, each at most once and in that
    order, whatever the drainage-area columns hold. *)
Theorem pollutants_in_vocabulary
    (self : PlutoLookupClient) (parsed : ParsedDescription) (pt : Point) :
  sublist (_get_ms4_attributes self pt) vocabulary
  /\ sublist (Loc.pollutants_of_concern (fst (lookup_location_features gcm self parsed)))
             vocabulary
  /\ NoDup (Loc.pollutants_of_concern (fst (lookup_location_features gcm self parsed))).
Proof.
  assert (H : sublist (Loc.pollutants_of_concern
                         (fst (lookup_location_features gcm self parsed)))
                      vocabulary).
  { destruct (lookup_features_cases self parsed) as [->|(row & _ & ->)].
    - apply sublist_nil_l.
    - apply _get_ms4_attributes_sublist. }
  split; [apply _get_ms4_attributes_sublist|]. split; [exact H|].
  refine (sublist_NoDup _ vocabulary _ H).
  apply (proj2 (NoDup_ListNoDup _)). unfold vocabulary.
  repeat constructor; simpl; intuition discriminate.
Qed.

(** X6.  In every result of the resolver: a location outside every
    drainage area has no pollutant tag; the full-site area is set only
    for a description with the entire-site sentinel and is then the lot
    area; and a result that is not the all-default one comes from a
    parcel of the store. *)
Theorem lookup_result_invariant
    (self : PlutoLookupClient) (parsed : ParsedDescription) :
  let loc := fst (lookup_location_features gcm self parsed) in
  (Loc.pollutants_of_concern loc <> [] -> Loc.in_ms4_area loc = true)
  /\ Loc.full_site_disturbed_sf loc
     = (if is_full_site (disturbed_area_sf parsed) then Loc.lot_area_sf loc else None)
  /\ (loc <> default_features ->
      exists row, In row (pluto self) /\ loc = features_of self parsed row).
Proof.
  cbv zeta. destruct (lookup_features_invariant self parsed) as [H1 H2].
  split; [|split; [exact H2|]].
  - intros Hne. destruct (Loc.in_ms4_area _) eqn:E; [reflexivity|].
    exfalso. apply Hne, H1. reflexivity.
  - intros Hne. destruct (lookup_features_cases self parsed) as [E|E];
      [congruence|exact E].
Qed.

(** X9.  The test for a missing address or borough that the classifier
    makes before it calls the lookup client changes nothing: the client
    makes the same test, and the classifier gets exactly what the client
    returns, with the same queries. *)
Theorem loc_features_is_lookup
    (self : StormwaterClassifier) (parsed : ParsedDescription) :
  _loc_features gcm self parsed = lookup_location_features gcm (lookup self) parsed
  /\ (not_str (street_address parsed) || not_str (borough parsed) = true ->
      lookup_location_features gcm (lookup self) parsed = (default_features, [])).
Proof.
  split; [apply _loc_features_lookup|].
  intros H. unfold lookup_location_features. rewrite H. reflexivity.
Qed.


(* ------------------------------------------------------------------- *)
(** *** The rule engine on top of the resolver *)

Lemma intermediates_eq (self : StormwaterClassifier) (text : string) :
  let parsed := parse_description text in
  let loc := fst (lookup_location_features gcm (lookup self) parsed) in
  let v := default 0%Z (py_or (new_impervious_sf parsed) (Some 0%Z)) in
  snd (classify_with_explanation gcm self text)
  = {| disturb_20000_sf := at_least_20000
                             (match disturbed_area_sf parsed with
                              | Some FULL_SITE => Loc.full_site_disturbed_sf loc
                              | Some (Num sf) => py_or (Some sf) (Loc.lot_area_sf loc)
                              | None => py_or None (Loc.lot_area_sf loc)
                              end);
       new_imp_5000_sf := (5000 <=? v)%Z;
       new_imp := (0 <? v)%Z;
       table_2_2_activity := _predict self "table_2_2_activity" text;
       in_ms4 := Loc.in_ms4_area loc;
       pollutants_of_concern := Loc.pollutants_of_concern loc |}
  /\ fst (classify_with_explanation gcm self text)
     = _compute_final_labels (snd (classify_with_explanation gcm self text))
                             (_predict self "new_connection" text).
Proof.
  cbv zeta. rewrite classify_with_explanation_eq. cbv zeta. cbn [fst snd].
  rewrite _loc_features_lookup. split; reflexivity.
Qed.

Lemma thresholds (v : Z) : (5000 <=? v)%Z = true -> (0 <? v)%Z = true.
Proof. rewrite Z.leb_le, Z.ltb_lt. lia. Qed.

(** X11.  The thresholds nest: a description that adds 5,000 square feet
    of impervious area adds some, so RR and WQ are "new impervious area
    and not a Table 2.2 activity", and the second disjunct of the rule
    never decides. *)
Theorem thresholds_nest (self : StormwaterClassifier) (text : string) :
  let final := fst (classify_with_explanation gcm self text) in
  let I := snd (classify_with_explanation gcm self text) in
  (new_imp_5000_sf I = true -> new_imp I = true)
  /\ RR final = new_imp I && negb (table_2_2_activity I)
  /\ WQ final = new_imp I && negb (table_2_2_activity I)
  /\ (new_imp_5000_sf I = true -> ESC final = true).
Proof.
  cbv zeta. destruct (intermediates_eq self text) as [EI EF].
  rewrite EF, EI. unfold _compute_final_labels.
  cbn [new_imp new_imp_5000_sf table_2_2_activity RR WQ ESC disturb_20000_sf].
  set (v := default 0%Z _).
  pose proof (thresholds v) as Hv.
  destruct (5000 <=? v)%Z, (0 <? v)%Z; try (specialize (Hv eq_refl); discriminate);
    simpl; rewrite ?orb_true_r; repeat split; auto; discriminate.
Qed.

(** X12.  Whenever NNI is not False, the other three rule outputs hold
    too: ESC, RR and WQ are true (and the location is in a drainage
    area, with no Table 2.2 activity). *)
Theorem NNI_implies_ESC_RR_WQ (self : StormwaterClassifier) (text : string) :
  NNI (fst (classify_with_explanation gcm self text)) <> NNI_False ->
  ESC (fst (classify_with_explanation gcm self text)) = true
  /\ RR (fst (classify_with_explanation gcm self text)) = true
  /\ WQ (fst (classify_with_explanation gcm self text)) = true
  /\ in_ms4 (snd (classify_with_explanation gcm self text)) = true
  /\ table_2_2_activity (snd (classify_with_explanation gcm self text)) = false.
Proof.
  destruct (intermediates_eq self text) as [_ EF]. rewrite EF.
  set (I := snd (classify_with_explanation gcm self text)).
  unfold _compute_final_labels. cbn [NNI ESC RR WQ].
  destruct (new_imp I), (disturb_20000_sf I), (table_2_2_activity I), (in_ms4 I);
    simpl; intros H; try congruence; auto.
Qed.

(** X13.  A Table 2.2 activity switches RR, WQ and NNI off, whatever the
    areas and the location are. *)
Theorem table_2_2_exempts (self : StormwaterClassifier) (text : string) :
  table_2_2_activity (snd (classify_with_explanation gcm self text)) = true ->
  RR (fst (classify_with_explanation gcm self text)) = false
  /\ WQ (fst (classify_with_explanation gcm self text)) = false
  /\ NNI (fst (classify_with_explanation gcm self text)) = NNI_False.
Proof.
  destruct (intermediates_eq self text) as [_ EF]. rewrite EF.
  set (I := snd (classify_with_explanation gcm self text)).
  unfold _compute_final_labels. cbn [NNI RR WQ]. intros ->.
  rewrite !andb_false_r. auto.
Qed.

(** X14.  When the parser gives no number other than zero for the
    disturbed area (it is absent, zero or the entire-site sentinel),
    disturb_20000_sf is decided by the lot area of the resolved parcel
    alone: it holds exactly when a parcel was resolved and its lot area
    is at least 20,000. *)
Theorem lot_area_decides (self : StormwaterClassifier) (text : string) :
  disturbed_area_sf (parse_description text) = None
  \/ disturbed_area_sf (parse_description text) = Some (Num 0)
  \/ disturbed_area_sf (parse_description text) = Some FULL_SITE ->
  disturb_20000_sf (snd (classify_with_explanation gcm self text)) = true
  <-> exists d,
        Loc.lot_area_sf (fst (_loc_features gcm self (parse_description text)))
        = Some d
        /\ (20000 <= d)%Z.
Proof.
  intros Hd. destruct (intermediates_eq self text) as [EI _]. cbv zeta in EI.
  rewrite EI, _loc_features_lookup. cbn [disturb_20000_sf].
  destruct (lookup_features_invariant (lookup self) (parse_description text))
    as [_ Hfs]. cbv zeta in Hfs.
  set (loc := fst (lookup_location_features gcm (lookup self) (parse_description text)))
    in *.
  assert (E : match disturbed_area_sf (parse_description text) with
              | Some FULL_SITE => Loc.full_site_disturbed_sf loc
              | Some (Num sf) => py_or (Some sf) (Loc.lot_area_sf loc)
              | None => py_or None (Loc.lot_area_sf loc)
              end = Loc.lot_area_sf loc).
  { destruct Hd as [E|[E|E]]; rewrite E in *; simpl in *; auto. }
  rewrite E. unfold at_least_20000. destruct (Loc.lot_area_sf loc) as [d|].
  - rewrite Z.leb_le. split; [eauto|intros (d' & [= <-] & H); exact H].
  - split; [discriminate|intros (d' & [=] & _)].
Qed.

(** X15.  A description with no street address or no borough gets no
    location-derived feature: in_ms4 is false, the pollutant list is
    empty, NNI is False, and disturb_20000_sf holds exactly when the
    parsed disturbed area is a number of at least 20,000. *)
Theorem no_location_features (self : StormwaterClassifier) (text : string) :
  street_address (parse_description text) = None
  \/ borough (parse_description text) = None ->
  in_ms4 (snd (classify_with_explanation gcm self text)) = false
  /\ pollutants_of_concern (snd (classify_with_explanation gcm self text)) = []
  /\ NNI (fst (classify_with_explanation gcm self text)) = NNI_False
  /\ (disturb_20000_sf (snd (classify_with_explanation gcm self text)) = true
      <-> exists n, disturbed_area_sf (parse_description text) = Some (Num n)
                    /\ (20000 <= n)%Z).
Proof.
  intros Hno. destruct (intermediates_eq self text) as [EI EF]. cbv zeta in EI.
  assert (El : fst (lookup_location_features gcm (lookup self) (parse_description text))
               = default_features).
  { unfold lookup_location_features.
    destruct Hno as [-> | ->]; simpl; rewrite ?orb_true_r; reflexivity. }
  rewrite El in EI. rewrite EF, EI. unfold _compute_final_labels.
  cbn [in_ms4 pollutants_of_concern NNI disturb_20000_sf default_features
       Loc.in_ms4_area Loc.pollutants_of_concern Loc.lot_area_sf
       Loc.full_site_disturbed_sf].
  rewrite andb_false_r. repeat split; try reflexivity.
  - destruct (disturbed_area_sf (parse_description text)) as [[sf|]|];
      simpl; try discriminate.
    destruct (Z.eqb_spec sf 0) as [->|Hne]; simpl; [discriminate|].
    intros H. exists sf. split; [reflexivity|apply Z.leb_le, H].
  - intros (n & -> & Hn). simpl.
    destruct (Z.eqb_spec n 0) as [->|Hne]; [lia|]. simpl. apply Z.leb_le, Hn.
Qed.

(** X16.  The evaluation script scores a predicted NNI as positive
    exactly when the four conditions of the rule hold and the location
    has at least one pollutant tag; an empty tag list counts as
    negative. *)
Theorem pred_nni_positive (self : StormwaterClassifier) (text : string) :
  let final := fst (classify_with_explanation gcm self text) in
  let I := snd (classify_with_explanation gcm self text) in
  (pred_nni (NNI final) = 1%Z
   <-> (new_imp I && disturb_20000_sf I && negb (table_2_2_activity I) && in_ms4 I
        = true
        /\ pollutants_of_concern I <> []))
  /\ (pred_nni (NNI final) = 0%Z \/ pred_nni (NNI final) = 1%Z)
  /\ NNI (classify gcm self text) = NNI final.
Proof.
  cbv zeta. destruct (intermediates_eq self text) as [_ EF].
  rewrite classify_fst, EF.
  set (I := snd (classify_with_explanation gcm self text)).
  unfold _compute_final_labels. cbn [NNI].
  destruct (new_imp I && disturb_20000_sf I && negb (table_2_2_activity I) && in_ms4 I).
  - destruct (pollutants_of_concern I) as [|t ts]; simpl; repeat split; auto;
      try discriminate; try tauto; intros [_ H]; congruence.
  - simpl. repeat split; auto; try discriminate. intros [H _]. discriminate.
Qed.

End Resolver.


Lemma NNI_implies_ESC_RR_WQ_witness :
  NNI (fst (classify_with_explanation no_close_matches example_classifier
              "Project at 123 Main Street in the borough of Brooklyn will disturb 25,000 SF and add 6,000 SF of new impervious area"))
  <> NNI_False
  /\ ESC (fst (classify_with_explanation no_close_matches example_classifier
                 "Project at 123 Main Street in the borough of Brooklyn will disturb 25,000 SF and add 6,000 SF of new impervious area"))
     = true.
Proof.
  assert (H : NNI (fst (classify_with_explanation no_close_matches example_classifier
                          "Project at 123 Main Street in the borough of Brooklyn will disturb 25,000 SF and add 6,000 SF of new impervious area"))
              <> NNI_False) by (vm_compute; discriminate).
  split; [exact H|].
  exact (proj1 (NNI_implies_ESC_RR_WQ no_close_matches example_classifier _ H)).
Defined.

Lemma table_2_2_exempts_witness :
  table_2_2_activity
    (snd (classify_with_explanation no_close_matches exempting_classifier
            "Project at 123 Main Street in the borough of Brooklyn will disturb 25,000 SF and add 6,000 SF of new impervious area"))
  = true
  /\ RR (fst (classify_with_explanation no_close_matches exempting_classifier
                "Project at 123 Main Street in the borough of Brooklyn will disturb 25,000 SF and add 6,000 SF of new impervious area"))
     = false.
Proof.
  assert (H : table_2_2_activity
                (snd (classify_with_explanation no_close_matches exempting_classifier
                        "Project at 123 Main Street in the borough of Brooklyn will disturb 25,000 SF and add 6,000 SF of new impervious area"))
              = true) by (vm_compute; reflexivity).
  split; [exact H|].
  exact (proj1 (table_2_2_exempts no_close_matches exempting_classifier _ H)).
Defined.

Lemma lot_area_decides_witness :
  disturbed_area_sf
    (parse_description "The entire site at 123 Main Street in Brooklyn will be disturbed")
  = Some FULL_SITE
  /\ disturb_20000_sf
       (snd (classify_with_explanation no_close_matches example_classifier
               "The entire site at 123 Main Street in Brooklyn will be disturbed"))
     = true.
Proof.
  assert (H : disturbed_area_sf
                (parse_description
                   "The entire site at 123 Main Street in Brooklyn will be disturbed")
              = Some FULL_SITE) by (vm_compute; reflexivity).
  split; [exact H|].
  apply (lot_area_decides no_close_matches example_classifier _ (or_intror (or_intror H))).
  exists 30000%Z. split; [vm_compute; reflexivity|lia].
Defined.

Lemma no_location_features_witness :
  street_address (parse_description "The project will disturb 25,000 SF of lawn") = None
  /\ in_ms4 (snd (classify_with_explanation no_close_matches example_classifier
                    "The project will disturb 25,000 SF of lawn"))
     = false
  /\ disturb_20000_sf
       (snd (classify_with_explanation no_close_matches example_classifier
               "The project will disturb 25,000 SF of lawn"))
     = true.
Proof.
  assert (H : street_address
                (parse_description "The project will disturb 25,000 SF of lawn")
              = None) by (vm_compute; reflexivity).
  split; [exact H|].
  destruct (no_location_features no_close_matches example_classifier _ (or_introl H))
    as (H1 & _ & _ & H4).
  split; [exact H1|]. apply H4. exists 25000%Z. split; [vm_compute; reflexivity|lia].
Defined.

(* ===================================================================== *)
(** ** Saving and loading the predictors *)
(* ===================================================================== *)

Lemma append_inj_l (p a b : string) :
  String.append p a = String.append p b -> a = b.
Proof. induction p as [|c p IH]; simpl; [auto|]. intros [= H]. auto. Qed.

Lemma chars_append (a b : string) :
  chars (String.append a b) = chars a ++ chars b.
Proof. induction a as [|c a IH]; simpl; [reflexivity|]. f_equal. exact IH. Qed.

Lemma chars_inj (a b : string) : chars a = chars b -> a = b.
Proof.
  intros H. apply (f_equal str) in H. unfold str, chars in H.
  rewrite !string_of_list_ascii_of_string in H. exact H.
Qed.

Lemma append_inj_r (a b t : string) :
  String.append a t = String.append b t -> a = b.
Proof.
  intros H. apply (f_equal chars) in H. rewrite !chars_append in H.
  apply app_inv_tail in H. apply chars_inj, H.
Qed.

Lemma path_join_inj (dir a b : string) : path_join dir a = path_join dir b -> a = b.
Proof.
  unfold path_join. intros H. apply append_inj_l in H. simpl in H.
  injection H as H. exact H.
Qed.

(** [load_models] depends on the two files it reads only. *)
Lemma load_models_ext fs fs' models_dir :
  fs' !! path_join models_dir "table_2_2_activity.joblib"
  = fs !! path_join models_dir "table_2_2_activity.joblib" ->
  fs' !! path_join models_dir "new_connection.joblib"
  = fs !! path_join models_dir "new_connection.joblib" ->
  load_models fs' models_dir = load_models fs models_dir.
Proof.
  intros H1 H2. unfold load_models. cbn [fold_left].
  change (String.append "table_2_2_activity" ".joblib") with "table_2_2_activity.joblib".
  change (String.append "new_connection" ".joblib") with "new_connection.joblib".
  rewrite H1, H2. reflexivity.
Qed.

Lemma save_model_other model label_name models_dir fs name :
  name <> (if String.eqb label_name "Vv" then "new_connection.joblib"
           else String.append label_name ".joblib") ->
  save_model model label_name models_dir fs !! path_join models_dir name
  = fs !! path_join models_dir name.
Proof.
  intros H. unfold save_model. apply lookup_insert_ne.
  intros E. apply path_join_inj in E. congruence.
Qed.

(** X17.  What the training script saves is what the classifier loads:
    a pipeline saved under the label "Vv" is loaded under the key
    "new_connection", one saved under "table_2_2_activity" under that
    key, neither save touches the other key, and saving under another
    label, made of letters, digits and underscores and not a spelling
    of one of the two file names, changes nothing of what is loaded.
    After both saves a classifier built with nothing cached holds both
    pipelines. *)
Theorem save_load_round_trip
    (fs : files) (models_dir : string) (model model' : predictor)
    (client : PlutoLookupClient) :
  load_models (save_model model "Vv" models_dir fs) models_dir !! "new_connection"
  = Some model
  /\ load_models (save_model model "Vv" models_dir fs) models_dir
     !! "table_2_2_activity"
     = load_models fs models_dir !! "table_2_2_activity"
  /\ load_models (save_model model "table_2_2_activity" models_dir fs) models_dir
     !! "table_2_2_activity"
     = Some model
  /\ load_models (save_model model "table_2_2_activity" models_dir fs) models_dir
     !! "new_connection"
     = load_models fs models_dir !! "new_connection"
  /\ (forall label_name,
        plain_label label_name = true ->
        label_name <> "Vv" ->
        lower_str label_name <> "new_connection" ->
        lower_str label_name <> "table_2_2_activity" ->
        load_models (save_model model label_name models_dir fs) models_dir
        = load_models fs models_dir)
  /\ (let fs2 := save_model model' "Vv" models_dir
                   (save_model model "table_2_2_activity" models_dir fs) in
      models (fst (__init__ None fs2 client models_dir)) !! "table_2_2_activity"
      = Some model
      /\ models (fst (__init__ None fs2 client models_dir)) !! "new_connection"
         = Some model').
Proof.
  assert (Hvv : forall m f,
            save_model m "Vv" models_dir f !! path_join models_dir "new_connection.joblib"
            = Some m) by (intros; apply lookup_insert_eq).
  assert (Htb : forall m f,
            save_model m "table_2_2_activity" models_dir f
            !! path_join models_dir "table_2_2_activity.joblib"
            = Some m) by (intros; apply lookup_insert_eq).
  repeat split.
  - rewrite (proj2 (load_models_lookup _ _)). apply Hvv.
  - rewrite !(proj1 (load_models_lookup _ _)).
    apply save_model_other. discriminate.
  - rewrite (proj1 (load_models_lookup _ _)). apply Htb.
  - rewrite !(proj2 (load_models_lookup _ _)).
    apply save_model_other. discriminate.
  - intros label_name _ H1 H2' H3'.
    assert (H2 : label_name <> "new_connection")
      by (intros ->; apply H2'; reflexivity).
    assert (H3 : label_name <> "table_2_2_activity")
      by (intros ->; apply H3'; reflexivity).
    apply load_models_ext; apply save_model_other;
      (destruct (String.eqb_spec label_name "Vv"); [congruence|]);
      intros E;
      [change "table_2_2_activity.joblib"
         with (String.append "table_2_2_activity" ".joblib") in E
      |change "new_connection.joblib"
         with (String.append "new_connection" ".joblib") in E];
      apply append_inj_r in E; congruence.
  - cbn [__init__ fst models default from_option id].
    rewrite (proj1 (load_models_lookup _ _)).
    rewrite save_model_other by discriminate. apply Htb.
  - cbn [__init__ fst models default from_option id].
    rewrite (proj2 (load_models_lookup _ _)). apply Hvv.
Qed.

(** X18.  [load_models] returns no key other than "table_2_2_activity"
    and "new_connection", and under each the pipeline of the file of
    that name; a file saved under another name, Vv.joblib for one, is
    never loaded. *)
Theorem load_models_keys (fs : files) (models_dir key : string) (model : predictor) :
  load_models fs models_dir !! key = Some model <->
  (key = "table_2_2_activity"
   /\ fs !! path_join models_dir "table_2_2_activity.joblib" = Some model)
  \/ (key = "new_connection"
      /\ fs !! path_join models_dir "new_connection.joblib" = Some model).
Proof.
  destruct (load_models_lookup fs models_dir) as [H1 H2].
  destruct (String.eqb_spec key "table_2_2_activity") as [->|N1].
  { rewrite H1. split; [auto|]. intros [[_ H]|[H _]]; [exact H|discriminate]. }
  destruct (String.eqb_spec key "new_connection") as [->|N2].
  { rewrite H2. split; [auto|]. intros [[H _]|[_ H]]; [discriminate|exact H]. }
  split; [|intros [[H _]|[H _]]; congruence].
  unfold load_models. cbn [fold_left].
  destruct (fs !! path_join models_dir _); destruct (fs !! path_join models_dir _);
    rewrite ?lookup_insert_ne, ?lookup_empty by congruence; discriminate.
Qed.

(* ===================================================================== *)
(** ** Further properties of the boolean coercion *)
(* ===================================================================== *)

Lemma lower_idem c : lower (lower c) = lower c.
Proof. destruct c as [[] [] [] [] [] [] [] []]; vm_compute; reflexivity. Qed.

Lemma is_space_lower c : is_space (lower c) = is_space c.
Proof. destruct c as [[] [] [] [] [] [] [] []]; vm_compute; reflexivity. Qed.

Lemma lstrip_map_lower l : lstrip (map lower l) = map lower (lstrip l).
Proof.
  induction l as [|c l IH]; simpl; [reflexivity|].
  rewrite is_space_lower. destruct (is_space c); [exact IH|reflexivity].
Qed.

Lemma lstrip_head l :
  match lstrip l with
  | c :: _ => is_space c = false
  | [] => True
  end.
Proof.
  induction l as [|c l IH]; simpl; [exact I|].
  destruct (is_space c) eqn:E; [exact IH|exact E].
Qed.

Lemma lstrip_fixed l :
  match l with
  | c :: _ => is_space c = false
  | [] => True
  end -> lstrip l = l.
Proof. destruct l as [|c l]; simpl; [reflexivity|]. intros ->. reflexivity. Qed.

Lemma lstrip_idem l : lstrip (lstrip l) = lstrip l.
Proof. apply lstrip_fixed, lstrip_head. Qed.

Lemma lstrip_suffix l : exists pre, l = pre ++ lstrip l.
Proof.
  induction l as [|c l [pre IH]]; simpl; [exists []; reflexivity|].
  destruct (is_space c); [|exists []; reflexivity].
  exists (c :: pre). simpl. f_equal. exact IH.
Qed.

Lemma trimmed_map_lower l : trimmed (map lower l) = map lower (trimmed l).
Proof.
  unfold trimmed.
  rewrite lstrip_map_lower, <- map_rev, lstrip_map_lower, map_rev. reflexivity.
Qed.

Lemma lstrip_trimmed l : lstrip (trimmed l) = trimmed l.
Proof.
  apply lstrip_fixed. unfold trimmed.
  destruct (lstrip_suffix (rev (lstrip l))) as (pre & E).
  destruct (rev (lstrip (rev (lstrip l)))) as [|c t] eqn:Er; [exact I|].
  apply (f_equal (@rev ascii)) in Er. rewrite rev_involutive in Er. simpl in Er.
  rewrite Er in E. apply (f_equal (@rev ascii)) in E.
  rewrite rev_involutive, !rev_app_distr, rev_involutive in E. simpl in E.
  pose proof (lstrip_head l) as H. rewrite E in H. exact H.
Qed.

Lemma trimmed_idem l : trimmed (trimmed l) = trimmed l.
Proof.
  unfold trimmed at 1. rewrite lstrip_trimmed. unfold trimmed.
  rewrite rev_involutive, lstrip_idem. reflexivity.
Qed.

Lemma strip_trimmed s : chars (strip s) = trimmed (chars s).
Proof. unfold strip. apply chars_str. Qed.

Lemma normalized_strip s : normalized (VStr (strip s)) = normalized (VStr s).
Proof.
  unfold normalized, py_str, lower_str. f_equal. f_equal.
  rewrite !strip_trimmed. apply trimmed_idem.
Qed.

Lemma normalized_lower s : normalized (VStr (lower_str s)) = normalized (VStr s).
Proof.
  unfold normalized, py_str. unfold lower_str at 1 3. f_equal.
  rewrite !strip_trimmed. unfold lower_str. rewrite chars_str, trimmed_map_lower.
  rewrite map_map. apply map_ext. intros c. apply lower_idem.
Qed.

Lemma to_bool_normalized s s' :
  normalized (VStr s) = normalized (VStr s') -> to_bool (VStr s) = to_bool (VStr s').
Proof. intros H. unfold to_bool. fold (normalized (VStr s)) (normalized (VStr s')). rewrite H. reflexivity. Qed.

(** X19.  On a string, [to_bool] does not see white space around it or
    the case of its letters: trimming the string or lower-casing it
    first gives the same result, the message of the error included. *)
Theorem to_bool_ignores_case_and_blanks (s : string) :
  to_bool (VStr (strip s)) = to_bool (VStr s)
  /\ to_bool (VStr (lower_str s)) = to_bool (VStr s)
  /\ to_bool (VStr (lower_str (strip s))) = to_bool (VStr s).
Proof.
  split; [|split]; apply to_bool_normalized.
  - apply normalized_strip.
  - apply normalized_lower.
  - rewrite normalized_lower. apply normalized_strip.
Qed.

Lemma quot_0_or_1 (n : Z) (d : positive) :
  ((n ÷ Zpos d = 0 \/ n ÷ Zpos d = 1) <-> (- Zpos d < n /\ n < 2 * Zpos d))%Z.
Proof.
  destruct (Z.le_gt_cases 0 n) as [Hn|Hn].
  - rewrite Z.quot_div_nonneg by lia.
    pose proof (Z.div_mod n (Zpos d) ltac:(lia)) as E.
    pose proof (Z.mod_pos_bound n (Zpos d) ltac:(lia)) as B.
    pose proof (Z.div_pos n (Zpos d) Hn ltac:(lia)) as P.
    split; [intros [H|H]; rewrite H in E; lia|intros [_ H]; nia].
  - replace n with (- (- n))%Z by lia.
    rewrite Z.quot_opp_l by lia. rewrite Z.quot_div_nonneg by lia.
    pose proof (Z.div_mod (- n) (Zpos d) ltac:(lia)) as E.
    pose proof (Z.mod_pos_bound (- n) (Zpos d) ltac:(lia)) as B.
    pose proof (Z.div_pos (- n) (Zpos d) ltac:(lia) ltac:(lia)) as P.
    split; [intros [H|H]; [|lia]; nia|intros [H _]; left; nia].
Qed.

(** X20.  On a finite float, [to_bool] returns 0 or 1 exactly when the
    float lies strictly between -1 and 2; any other number comes back
    as an integer that is no boolean label. *)
Theorem to_bool_float_boolean (q : Q) :
  (to_bool (VFloat (Fin q)) = Return 0%Z \/ to_bool (VFloat (Fin q)) = Return 1%Z)
  <-> (-1 < q /\ q < 2)%Q.
Proof.
  change (to_bool (VFloat (Fin q))) with (Return (Qnum q ÷ Zpos (Qden q))%Z).
  pose proof (quot_0_or_1 (Qnum q) (Qden q)) as Hq.
  unfold Qlt. cbn [Qnum Qden].
  split.
  - intros [[= H]|[= H]];
      [pose proof (proj1 Hq (or_introl H))|pose proof (proj1 Hq (or_intror H))]; lia.
  - intros [H1 H2].
    assert (H' : (- Zpos (Qden q) < Qnum q /\ Qnum q < 2 * Zpos (Qden q))%Z) by lia.
    apply Hq in H'. destruct H' as [-> | ->]; auto.
Qed.
